(** * code_utils: a shallow embedding of [cutils] (code_utils.hpp)

    The header defines three run-time components:
    - the variadic formatter [print] (scalars and containers),
    - [human_readable_time] and the scope [Timer],
    - the [xorshift32] pseudo-random engine with its stream operators.

    Conventions of the embedding:
    - [uint32_t] is a [Z] in [0, 2^32); the wrap-around of [<<] is written
      out with [wrap32];
    - [long long] is a [Z]; [/] on it is C++ truncating division, [Z.quot];
    - [std::cout] and the string streams are [string]s, written by appending
      and read from the front;
    - a dereference that C++ leaves undefined returns [None]. *)

From Stdlib Require Import ZArith List String Ascii Bool Lia Arith.
Import ListNotations.

Local Open Scope Z_scope.

(** ** 32-bit unsigned words *)

Definition wrap32 (z : Z) : Z := z mod 2 ^ 32.

Definition uint32 (z : Z) : Prop := 0 <= z < 2 ^ 32.

(** [y << a] on a [uint32_t]. *)
Definition shl32 (a y : Z) : Z := wrap32 (Z.shiftl y a).

(** [std::numeric_limits<uint32_t>::min()] and [max()]. *)
Definition uint32_min : Z := 0.
Definition uint32_max : Z := 2 ^ 32 - 1.

(** ** class xorshift32 *)

Module Xorshift32.

Record xorshift32 : Type := mk { seed_ : Z }.

(** [xorshift32(): seed_(12)] *)
Definition default_ctor : xorshift32 := mk 12.

(** [explicit xorshift32(ResultType seed_)]: the argument is converted to
    [uint32_t] at the call. *)
Definition ctor (seed : Z) : xorshift32 := mk (wrap32 seed).

(** The three assignments of [operator()], on the local [x]. *)
Definition step_shl13 (x : Z) : Z := Z.lxor x (wrap32 (Z.shiftl x 13)).
Definition step_shr17 (x : Z) : Z := Z.lxor x (Z.shiftr x 17).
Definition step_shl5 (x : Z) : Z := Z.lxor x (wrap32 (Z.shiftl x 5)).

(** [ResultType operator()()]: returns the value and the updated object. *)
Definition call (g : xorshift32) : Z * xorshift32 :=
  let x := seed_ g in
  let x := step_shl13 x in
  let x := step_shr17 x in
  let x := step_shl5 x in
  (x, mk x).

(** The state transition alone. *)
Definition next (x : Z) : Z := fst (call (mk x)).

(** The loop of [discard], [for (long long i = 0; i < z; ++i)], whose body
    is one generation call on this object; [k] iterations are left. *)
Fixpoint discard_loop (k : nat) (g : xorshift32) : xorshift32 :=
  match k with
  | O => g
  | S k' => discard_loop k' (snd (call g))
  end.

(** [void discard(long long z)]: the loop body runs [z] times when [z > 0]
    and not at all otherwise. *)
Definition discard (z : Z) (g : xorshift32) : xorshift32 :=
  discard_loop (Z.to_nat z) g.

(** [static min()] and [static max()]. *)
Definition min : Z := uint32_min.
Definition max : Z := uint32_max.

(** [void seed()] and [void seed(ResultType)]. *)
Definition seed0 (_ : xorshift32) : xorshift32 := default_ctor.
Definition seed1 (seed_inp : Z) (_ : xorshift32) : xorshift32 := ctor seed_inp.

(** [operator==] and [operator!=]. *)
Definition eqb (lhs rhs : xorshift32) : bool := seed_ lhs =? seed_ rhs.
Definition neqb (lhs rhs : xorshift32) : bool := negb (seed_ lhs =? seed_ rhs).

(** Undoing [x ^= x << a] on a 32-bit word: with [L y = wrap32 (y << a)],
    [unshl a k y = y ^ L y ^ L (L y) ^ ...] with [k] shifted terms. *)
Fixpoint unshl (a : Z) (k : nat) (y : Z) : Z :=
  match k with
  | O => y
  | S k' => Z.lxor y (wrap32 (Z.shiftl (unshl a k' y) a))
  end.

(** The candidate inverse of the transition, the three steps undone in
    reverse order. *)
Definition prev (y : Z) : Z := unshl 13 2 (step_shr17 (unshl 5 6 y)).

(** The transition as the specification words it, with the shifts as
    arithmetic on the 32-bit value: a left shift multiplies and wraps,
    a right shift divides. *)
Definition spec_transition (x : Z) : Z :=
  let x := Z.lxor x ((x * 2 ^ 13) mod 2 ^ 32) in
  let x := Z.lxor x (x / 2 ^ 17) in
  let x := Z.lxor x ((x * 2 ^ 5) mod 2 ^ 32) in
  x.

(** [k] successive generation calls: the values returned, in order, and the
    generator afterwards. *)
Fixpoint generate (k : nat) (g : xorshift32) : list Z * xorshift32 :=
  match k with
  | O => ([], g)
  | S k' =>
      let (v, g1) := call g in
      let (vs, g2) := generate k' g1 in
      (v :: vs, g2)
  end.

End Xorshift32.

(** ** Formatted stream I/O of integers

    The header relies on the standard streams for numbers: [os << n] writes
    the decimal digits of [n] (with a leading [-] for a negative [long long]),
    and [is >> n] for an unsigned 32-bit [n] skips leading white space, reads
    an optional sign and the longest run of decimal digits and stores the
    value, negated modulo 2^32 after a [-].  At the end of the input nothing
    is stored and the stream fails; when no digit is found the stream fails
    and 0 is stored; when the digits do not fit the stream fails and the
    largest value is stored. *)

Module Stream.

Local Open Scope string_scope.

Definition digit_char (d : Z) : ascii := ascii_of_nat (48 + Z.to_nat d).

(** Digits of [n >= 0], most significant first, in front of [acc]. *)
Fixpoint put_digits (fuel : nat) (n : Z) (acc : string) : string :=
  match fuel with
  | O => acc
  | S fuel' =>
      let acc' := String (digit_char (n mod 10)) acc in
      if (n / 10 =? 0)%Z then acc' else put_digits fuel' (n / 10) acc'
  end.

(** [os << n] for an unsigned value; 20 digits cover 64 bits. *)
Definition put_unsigned (n : Z) : string := put_digits 20 n "".

(** [os << n] for a [long long]. *)
Definition put_signed (n : Z) : string :=
  if (n <? 0)%Z then "-" ++ put_unsigned (- n) else put_unsigned n.

(** [std::isspace] in the "C" locale. *)
Definition is_space (c : ascii) : bool :=
  let n := nat_of_ascii c in
  (Nat.eqb n 32 || (Nat.leb 9 n && Nat.leb n 13))%bool.

Fixpoint skipws (s : string) : string :=
  match s with
  | String c s' => if is_space c then skipws s' else s
  | EmptyString => s
  end.

Definition digit_val (c : ascii) : option Z :=
  let n := Z.of_nat (nat_of_ascii c) in
  if ((48 <=? n)%Z && (n <=? 57)%Z)%bool then Some (n - 48) else None.

(** Reads the longest run of digits, accumulating its value. *)
Fixpoint get_digits (acc : Z) (s : string) : Z * string :=
  match s with
  | String c s' =>
      match digit_val c with
      | Some d => get_digits (acc * 10 + d) s'
      | None => (acc, s)
      end
  | EmptyString => (acc, s)
  end.

Definition starts_with_digit (s : string) : bool :=
  match s with
  | String c _ => match digit_val c with Some _ => true | None => false end
  | EmptyString => false
  end.

(** [is >> n] for [uint32_t n] holding [old]: the value [n] holds afterwards,
    whether the extraction succeeded, and the unread rest of the stream. *)
Definition get_uint32 (old : Z) (s : string) : Z * bool * string :=
  let s := skipws s in
  match s with
  | EmptyString => (old, false, s)
  | String c s' =>
      let negative := Ascii.eqb c "-" in
      let body := if (negative || Ascii.eqb c "+")%bool then s' else s in
      if starts_with_digit body then
        let (v, rest) := get_digits 0 body in
        if (v <=? uint32_max)%Z
        then (if negative then wrap32 (- v) else v, true, rest)
        else (uint32_max, false, rest)
      else (0, false, body)
  end.

End Stream.

(** ** The stream operators of xorshift32 *)

Module Xorshift32IO.

Import Xorshift32.
Local Open Scope string_scope.

(** [operator<<]: [os << rng.seed_] in decimal. *)
Definition write (os : string) (rng : xorshift32) : string :=
  os ++ Stream.put_unsigned (seed_ rng).

(** [operator>>]: [is >> rng.seed_]; the generator afterwards, the stream's
    good bit and the unread input. *)
Definition read (is_ : string) (rng : xorshift32) : xorshift32 * bool * string :=
  let '(v, ok, rest) := Stream.get_uint32 (seed_ rng) is_ in
  (mk v, ok, rest).

End Xorshift32IO.

(** ** The formatter: the three overloads of print *)

Module Formatter.

Local Open Scope string_scope.

(** [template<char sep, char end> void print()] *)
Definition print_nullary (end_ : ascii) (out : string) : string :=
  out ++ String end_ "".

(** The variadic overload at arguments that all satisfy [StdOutStreamable]:
    each argument is given by the characters [std::cout << first] writes. *)
Fixpoint print_streamable (sep end_ : ascii) (args : list string)
    (out : string) : string :=
  match args with
  | [] => print_nullary end_ out
  | first :: rest =>
      print_streamable sep end_ rest (out ++ first ++ String sep "")
  end.

Section Container.

(** The element type of the container, with its [operator!=] and the text
    its [operator<<] writes. *)
Variable T : Type.
Variable neq : T -> T -> bool.
Variable show : T -> string.

(** Iterators are positions; [begin] is 0 and [end] the length.  Reading
    through a position outside [0, end) is undefined: [None]. *)
Definition end_pos (output : list T) : Z := Z.of_nat (List.length output).

Definition deref (output : list T) (it : Z) : option T :=
  if (it <? 0)%Z then None else nth_error output (Z.to_nat it).

(** The body of the range-for in the container overload. *)
Definition print_elem (sep end_ : ascii) (last_elem elem : T)
    (out : string) : string :=
  if neq elem last_elem
  then print_streamable sep " " [show elem; ","] out
  else print_streamable sep end_ [show elem; "}"] out.

(** [for (const auto& elem : output)]: [k] positions remain before [end],
    the iterator stands at [it]. *)
Fixpoint range_for (k : nat) (it : Z) (sep end_ : ascii) (output : list T)
    (last_elem : T) (out : string) : option string :=
  match k with
  | O => Some out
  | S k' =>
      match deref output it with
      | None => None
      | Some elem =>
          range_for k' (it + 1) sep end_ output last_elem
            (print_elem sep end_ last_elem elem out)
      end
  end.

(** [print(Container auto const & output)] *)
Definition print_container (sep end_ : ascii) (output : list T)
    (out : string) : option string :=
  let out := print_streamable sep " " ["{"] out in
  match deref output (end_pos output - 1) with
  | None => None
  | Some last_elem =>
      range_for (List.length output) 0 sep end_ output last_elem out
  end.

(** An argument of [print], by the two concepts the overloads test:
    [Scalar] satisfies [StdOutStreamable] only and is given by the text
    [std::cout << first] writes; [Cont] satisfies [Container] only;
    [Both] satisfies both (a [std::string]) and has its text and its
    elements. *)
Inductive printable : Type :=
  | Scalar (text : string)
  | Cont (output : list T)
  | Both (text : string) (output : list T).

(** The text of an argument that satisfies [StdOutStreamable]. *)
Definition streamed (a : printable) : option string :=
  match a with
  | Scalar text => Some text
  | Both text _ => Some text
  | Cont _ => None
  end.

(** The elements of an argument that satisfies [Container]. *)
Definition container (a : printable) : option (list T) :=
  match a with
  | Scalar _ => None
  | Cont output => Some output
  | Both _ output => Some output
  end.

(** The [if constexpr] of the variadic overload on [first]: a
    stream-writable argument is written followed by [sep], any other goes
    to [print<sep, ' '>(first)], the container overload. *)
Definition print_first (sep : ascii) (first : printable) (out : string)
    : option string :=
  match first with
  | Scalar text | Both text _ => Some (out ++ text ++ String sep "")
  | Cont output => print_container sep " " output out
  end.

(** [print(args...)], with overload resolution made explicit: no argument
    selects the nullary overload; a single argument that is a container
    selects the container overload, stream-writable or not; anything else
    selects the variadic overload, which treats [first] and calls
    [print<sep, end>(rest...)]. *)
Fixpoint print (sep end_ : ascii) (args : list printable) (out : string)
    : option string :=
  match args with
  | [] => Some (print_nullary end_ out)
  | first :: rest =>
      match rest, container first with
      | [], Some output => print_container sep end_ output out
      | _, _ =>
          match print_first sep first out with
          | None => None
          | Some out' => print sep end_ rest out'
          end
      end
  end.

End Container.

Arguments Scalar {T} text.
Arguments Cont {T} output.
Arguments Both {T} text output.

(** Containers of integers, as used in the examples. *)
Definition neqZ (a b : Z) : bool := negb (a =? b)%Z.
Definition print_containerZ := print_container Z neqZ Stream.put_signed.

End Formatter.

(** ** human_readable_time and the scope Timer *)

Module Timing.

Local Open Scope string_scope.

Record HumanReadableTime : Type := mkHRT {
  unit : string;
  unit_fine : string;
  diff : Z;
  diff_fine : Z;
  diff_ns : Z
}.

(** [static HumanReadableTime human_readable_time(long long diff)].

    The source tests the thresholds on [diff_d = (double) diff], as
    [diff_d / 1.e3 < 1.] and so on.  Every threshold (1e3, 1e6, 1e9, 6e10,
    3.6e12) is an integer below 2^53: the conversion is exact around it and
    monotone elsewhere, and a quotient of an integer below the threshold is at
    most [1 - 1/3.6e12], which does not round up to 1.  Each test is therefore
    the integer comparison written here.  The divisions are done on the
    [long long] values and truncate. *)
Definition human_readable_time (diff : Z) : HumanReadableTime :=
  let diff_ns := diff in
  let diff_fine := diff in
  if (diff <? 1000)%Z then
    mkHRT " ns" "" diff diff_fine diff_ns
  else if (diff <? 1000000)%Z then
    mkHRT " µs" "" (Z.quot diff 1000) diff_fine diff_ns
  else if (diff <? 1000000000)%Z then
    mkHRT " ms" " µs" (Z.quot diff 1000000) (Z.quot diff_fine 1000) diff_ns
  else if (diff <? 1000000000 * 60)%Z then
    mkHRT " s" " ms" (Z.quot diff 1000000000) (Z.quot diff_fine 1000000)
      diff_ns
  else if (diff <? 1000000000 * 3600)%Z then
    mkHRT " m" " s" (Z.quot diff 60000000000) (Z.quot diff_fine 1000000000)
      diff_ns
  else
    mkHRT " h" " m" (Z.quot diff 3600000000000) (Z.quot diff_fine 60000000)
      diff_ns.

(** The unit selection as the specification documents it: thresholds in
    order, first match wins, and for each unit the label and the divisor of
    the coarse and of the fine magnitude (no fine unit below 1 ms: the fine
    magnitude is then the raw count). *)
Definition spec_units (diff : Z) : string * string * Z * Z :=
  if (diff <? 1000)%Z then ("ns", "", 1, 1)%Z
  else if (diff <? 1000000)%Z then ("µs", "", 1000, 1)%Z
  else if (diff <? 1000000000)%Z then ("ms", "µs", 1000000, 1000)%Z
  else if (diff <? 60 * 1000000000)%Z then
    ("s", "ms", 1000000000, 1000000)%Z
  else if (diff <? 3600 * 1000000000)%Z then
    ("m", "s", 60 * 1000000000, 1000000000)%Z
  else ("h", "m", 3600 * 1000000000, 60 * 1000000000)%Z.

(** The source spells every unit with a blank in front, for the report. *)
Definition spaced (label : string) : string :=
  match label with
  | "" => ""
  | _ => " " ++ label
  end.

Definition spec_human_readable_time (diff : Z) : HumanReadableTime :=
  let '(u, uf, d, df) := spec_units diff in
  mkHRT (spaced u) (spaced uf) (Z.quot diff d) (Z.quot diff df) diff.

(** [class Timer].  Clock readings are nanosecond counts; every call of
    [Clock::now()] is an input of the operation that makes it, and so is the
    text [std::ctime] returns in [stop]. *)
Record Timer : Type := mkTimer {
  Start : Z;
  Now : Z;
  stopped : bool
}.

(** [Timer() = default], with the member initialisers. *)
Definition ctor (now : Z) : Timer := mkTimer now 0 false.

(** [void restart()] *)
Definition restart (now : Z) (t : Timer) : Timer :=
  mkTimer now (Now t) (stopped t).

(** The characters of the one output statement of [stop]. *)
Definition report (ctime : string) (hrt : HumanReadableTime) : string :=
  "finished computation at " ++ ctime ++
  "elapsed time: " ++ Stream.put_signed (diff hrt) ++ unit hrt ++
  " (" ++ Stream.put_signed (diff_fine hrt) ++ unit_fine hrt ++ ")" ++
  String "010" "".

(** [HumanReadableTime stop()].  The console is the list of the reports
    written so far, one entry for each execution of the output statement. *)
Definition stop (now : Z) (ctime : string) (t : Timer) (cout : list string)
    : HumanReadableTime * Timer * list string :=
  let diff_ := (now - Start t)%Z in
  let hrt := human_readable_time diff_ in
  (hrt, mkTimer (Start t) now true, (cout ++ [report ctime hrt])%list).

(** [~Timer()] *)
Definition dtor (now : Z) (ctime : string) (t : Timer) (cout : list string)
    : list string :=
  if negb (stopped t) then snd (stop now ctime t cout) else cout.

(** What a scope does with its Timer between construction and destruction. *)
Inductive op : Type :=
  | Restart (now : Z)
  | Stop (now : Z) (ctime : string).

Definition is_stop (o : op) : bool :=
  match o with Stop _ _ => true | Restart _ => false end.

Definition is_restart (o : op) : bool :=
  match o with Restart _ => true | Stop _ _ => false end.

Fixpoint run (ops : list op) (t : Timer) (cout : list string)
    : Timer * list string :=
  match ops with
  | [] => (t, cout)
  | Restart now :: ops' => run ops' (restart now t) cout
  | Stop now ctime :: ops' =>
      let '(_, t', cout') := stop now ctime t cout in run ops' t' cout'
  end.

(** A whole lifetime: construction at [start], the calls [ops], destruction
    at [now]; the result is the console afterwards. *)
Definition lifetime (start : Z) (ops : list op) (now : Z) (ctime : string)
    (cout : list string) : list string :=
  let (t, cout') := run ops (ctor start) cout in dtor now ctime t cout'.

End Timing.

(** ** Output texts the claims speak of *)

Module FormatterSpec.

Local Open Scope string_scope.

(** Every value followed by [sep]. *)
Fixpoint each_followed_by (sep : ascii) (args : list string) : string :=
  match args with
  | [] => ""
  | first :: rest => first ++ String sep "" ++ each_followed_by sep rest
  end.

(** Every value but the last followed by [sep], the last by [end]. *)
Fixpoint last_followed_by_end (sep end_ : ascii) (args : list string)
    : string :=
  match args with
  | [] => ""
  | [final] => final ++ String end_ ""
  | first :: rest =>
      first ++ String sep "" ++ last_followed_by_end sep end_ rest
  end.

Section Container.

Variable T : Type.
Variable neq : T -> T -> bool.
Variable show : T -> string.

(** What is written before the first element: the brace, [sep], a blank. *)
Definition opening (sep : ascii) : string :=
  "{" ++ String sep "" ++ " ".

(** An element followed by a comma. *)
Definition with_comma (sep : ascii) (elem : T) : string :=
  show elem ++ String sep "" ++ "," ++ String sep "" ++ " ".

(** An element followed by the closing brace and the terminator. *)
Definition with_brace (sep end_ : ascii) (elem : T) : string :=
  show elem ++ String sep "" ++ "}" ++ String sep "" ++ String end_ "".

Definition elem_text (sep end_ : ascii) (last_elem elem : T) : string :=
  if neq elem last_elem then with_comma sep elem
  else with_brace sep end_ elem.

Fixpoint elems_text (sep end_ : ascii) (last_elem : T) (elems : list T)
    : string :=
  match elems with
  | [] => ""
  | elem :: rest =>
      elem_text sep end_ last_elem elem ++ elems_text sep end_ last_elem rest
  end.

Fixpoint commas_text (sep : ascii) (elems : list T) : string :=
  match elems with
  | [] => ""
  | elem :: rest => with_comma sep elem ++ commas_text sep rest
  end.

(** The arguments [front] of a call treated in order by the variadic
    overload, each as [first] with further arguments behind it. *)
Definition print_front (sep : ascii) (front : list (Formatter.printable T))
    (out : string) : option string :=
  fold_left
    (fun acc first =>
       match acc with
       | Some out' => Formatter.print_first T neq show sep first out'
       | None => None
       end)
    front (Some out).

(** Rendering that stops at [x], the first element equal to the last one:
    the elements [pre] before it with commas, [x] with the closing brace,
    and nothing after. *)
Definition early_stop_text (sep end_ : ascii) (pre : list T) (x : T)
    : string :=
  opening sep ++ commas_text sep pre ++ with_brace sep end_ x.

End Container.

End FormatterSpec.

(** ** Clock readings a Timer measures from *)

Module TimerSpec.

Import Timing.

(** The reading the elapsed time is taken from after the calls [ops] on a
    Timer constructed at [start]: that of the last [restart()], or [start]
    when there was none. *)
Fixpoint last_restart (start : Z) (ops : list op) : Z :=
  match ops with
  | [] => start
  | Restart now :: ops' => last_restart now ops'
  | Stop _ _ :: ops' => last_restart start ops'
  end.

End TimerSpec.

(** * Properties *)

(** ** 32-bit words and their bits *)

Lemma wrap32_testbit (z i : Z) :
  Z.testbit (wrap32 z) i = (i <? 32) && Z.testbit z i.
Proof. unfold wrap32. apply Z.testbit_mod_pow2. lia. Qed.

Lemma uint32_wrap32 (z : Z) : uint32 (wrap32 z).
Proof. unfold uint32, wrap32. apply Z.mod_pos_bound. lia. Qed.

Lemma wrap32_small (z : Z) : uint32 z -> wrap32 z = z.
Proof. intros H. apply Z.mod_small. exact H. Qed.

Lemma wrap32_fix_uint32 (z : Z) : wrap32 z = z -> uint32 z.
Proof. intros H. rewrite <- H. apply uint32_wrap32. Qed.

Lemma uint32_lxor (a b : Z) : uint32 a -> uint32 b -> uint32 (Z.lxor a b).
Proof.
  intros Ha Hb. apply wrap32_fix_uint32. apply Z.bits_inj'. intros i _.
  rewrite wrap32_testbit, Z.lxor_spec.
  rewrite <- (wrap32_small a Ha), <- (wrap32_small b Hb), !wrap32_testbit.
  destruct (i <? 32); reflexivity.
Qed.

Lemma uint32_shiftr (x n : Z) : 0 <= n -> uint32 x -> uint32 (Z.shiftr x n).
Proof.
  intros Hn [H0 H1]. rewrite Z.shiftr_div_pow2 by exact Hn.
  assert (Hp : 0 < 2 ^ n) by (apply Z.pow_pos_nonneg; lia).
  split.
  - apply Z.div_pos; assumption.
  - apply Z.le_lt_trans with x; [| exact H1].
    apply Z.div_le_upper_bound; [exact Hp | nia].
Qed.

Lemma testbit_shiftl (a n m : Z) :
  0 <= n -> Z.testbit (Z.shiftl a n) m = Z.testbit a (m - n).
Proof.
  intros Hn. destruct (Z.ltb_spec m 0) as [Hm | Hm].
  - rewrite !Z.testbit_neg_r by lia. reflexivity.
  - apply Z.shiftl_spec. exact Hm.
Qed.

(** ** The wrapped left shift as a linear, nilpotent operator *)

Lemma shl32_testbit (a y i : Z) :
  0 <= a -> Z.testbit (shl32 a y) i = (i <? 32) && Z.testbit y (i - a).
Proof.
  intros Ha. unfold shl32. rewrite wrap32_testbit, testbit_shiftl by exact Ha.
  reflexivity.
Qed.

Lemma shl32_lxor (a x y : Z) :
  0 <= a -> shl32 a (Z.lxor x y) = Z.lxor (shl32 a x) (shl32 a y).
Proof.
  intros Ha. apply Z.bits_inj'. intros i _.
  rewrite Z.lxor_spec, !shl32_testbit, Z.lxor_spec by exact Ha.
  destruct (i <? 32); reflexivity.
Qed.

Lemma shl32_shl32 (a b y : Z) :
  0 <= a -> 0 <= b -> shl32 a (shl32 b y) = shl32 (b + a) y.
Proof.
  intros Ha Hb. apply Z.bits_inj'. intros i Hi.
  rewrite !shl32_testbit by lia.
  replace (i - (b + a)) with (i - a - b) by lia.
  destruct (Z.ltb_spec i 32) as [Hlt | Hge]; [| reflexivity].
  destruct (Z.ltb_spec (i - a) 32); [reflexivity | lia].
Qed.

Lemma shl32_out (a y : Z) : 32 <= a -> shl32 a y = 0.
Proof.
  intros Ha. apply Z.bits_inj_0. intros i.
  rewrite shl32_testbit by lia.
  destruct (Z.ltb_spec i 32) as [Hlt | Hge]; [| reflexivity].
  apply Z.testbit_neg_r. lia.
Qed.

Lemma uint32_shl32 (a y : Z) : uint32 (shl32 a y).
Proof. apply uint32_wrap32. Qed.

(** Four-term exclusive-or bookkeeping used below. *)
Lemma lxor_swap_cancel (y A B C D : Z) :
  Z.lxor A B = Z.lxor C D ->
  Z.lxor (Z.lxor y A) (Z.lxor C B) = Z.lxor y D.
Proof.
  intros H. apply Z.bits_inj'. intros i _.
  assert (Hi : Z.testbit (Z.lxor A B) i = Z.testbit (Z.lxor C D) i)
    by (rewrite H; reflexivity).
  rewrite !Z.lxor_spec in *.
  destruct (Z.testbit y i), (Z.testbit A i), (Z.testbit B i),
    (Z.testbit C i), (Z.testbit D i); simpl in *; congruence.
Qed.

Lemma lxor_cancel_middle (y C D : Z) :
  Z.lxor (Z.lxor y C) (Z.lxor C D) = Z.lxor y D.
Proof.
  apply Z.bits_inj'. intros i _. rewrite !Z.lxor_spec.
  destruct (Z.testbit y i), (Z.testbit C i), (Z.testbit D i); reflexivity.
Qed.

(** ** xorshift32: the transition and its inverse *)

Section Transition.

Import Xorshift32.

Lemma unshl_uint32 (a : Z) (k : nat) (y : Z) : uint32 y -> uint32 (unshl a k y).
Proof.
  intros Hy. destruct k as [| k]; simpl; [exact Hy |].
  apply uint32_lxor; [exact Hy | apply uint32_wrap32].
Qed.

(** Applying [x ^= x << a] after [unshl a k] leaves one shifted term. *)
Lemma step_unshl (a : Z) (k : nat) (y : Z) :
  0 <= a ->
  Z.lxor (unshl a k y) (shl32 a (unshl a k y))
  = Z.lxor y (shl32 (a * Z.of_nat (S k)) y).
Proof.
  intros Ha. induction k as [| k IH].
  - simpl unshl. replace (a * Z.of_nat 1) with a by lia. reflexivity.
  - change (unshl a (S k) y) with (Z.lxor y (shl32 a (unshl a k y))).
    rewrite shl32_lxor by exact Ha.
    apply lxor_swap_cancel.
    rewrite <- shl32_lxor by exact Ha. rewrite IH.
    rewrite shl32_lxor by exact Ha. f_equal.
    rewrite shl32_shl32 by lia. f_equal. lia.
Qed.

(** Applying [unshl a k] after [x ^= x << a] leaves the same term. *)
Lemma unshl_step (a : Z) (k : nat) (y : Z) :
  0 <= a ->
  unshl a k (Z.lxor y (shl32 a y))
  = Z.lxor y (shl32 (a * Z.of_nat (S k)) y).
Proof.
  intros Ha. induction k as [| k IH].
  - simpl unshl. replace (a * Z.of_nat 1) with a by lia. reflexivity.
  - change (unshl a (S k) ?z) with (Z.lxor z (shl32 a (unshl a k z))).
    rewrite IH. rewrite shl32_lxor by exact Ha.
    rewrite shl32_shl32 by lia.
    replace (a * Z.of_nat (S k) + a) with (a * Z.of_nat (S (S k))) by lia.
    apply lxor_cancel_middle.
Qed.

Lemma step_shl13_unshl (y : Z) : step_shl13 (unshl 13 2 y) = y.
Proof.
  unfold step_shl13. fold (shl32 13 (unshl 13 2 y)).
  rewrite step_unshl by lia. rewrite shl32_out by lia. apply Z.lxor_0_r.
Qed.

Lemma unshl_step_shl13 (x : Z) : unshl 13 2 (step_shl13 x) = x.
Proof.
  unfold step_shl13. fold (shl32 13 x).
  rewrite unshl_step by lia. rewrite shl32_out by lia. apply Z.lxor_0_r.
Qed.

Lemma step_shl5_unshl (y : Z) : step_shl5 (unshl 5 6 y) = y.
Proof.
  unfold step_shl5. fold (shl32 5 (unshl 5 6 y)).
  rewrite step_unshl by lia. rewrite shl32_out by lia. apply Z.lxor_0_r.
Qed.

Lemma unshl_step_shl5 (x : Z) : unshl 5 6 (step_shl5 x) = x.
Proof.
  unfold step_shl5. fold (shl32 5 x).
  rewrite unshl_step by lia. rewrite shl32_out by lia. apply Z.lxor_0_r.
Qed.

(** [x ^= x >> 17] is its own inverse on 32-bit words. *)
Lemma step_shr17_involutive (x : Z) : uint32 x -> step_shr17 (step_shr17 x) = x.
Proof.
  intros [H0 H1]. unfold step_shr17.
  rewrite Z.shiftr_lxor, Z.shiftr_shiftr by lia.
  replace (Z.shiftr x (17 + 17)) with 0.
  - rewrite Z.lxor_0_r, Z.lxor_assoc, Z.lxor_nilpotent. apply Z.lxor_0_r.
  - symmetry. rewrite Z.shiftr_div_pow2 by lia.
    apply Z.div_small. change (2 ^ (17 + 17)) with 17179869184.
    change (2 ^ 32) with 4294967296 in H1. lia.
Qed.

Lemma uint32_step_shl13 (x : Z) : uint32 x -> uint32 (step_shl13 x).
Proof. intros H. apply uint32_lxor; [exact H | apply uint32_wrap32]. Qed.

Lemma uint32_step_shr17 (x : Z) : uint32 x -> uint32 (step_shr17 x).
Proof. intros H. apply uint32_lxor; [exact H | apply uint32_shiftr; [lia | exact H]]. Qed.

Lemma uint32_step_shl5 (x : Z) : uint32 x -> uint32 (step_shl5 x).
Proof. intros H. apply uint32_lxor; [exact H | apply uint32_wrap32]. Qed.

Lemma next_unfold (x : Z) : next x = step_shl5 (step_shr17 (step_shl13 x)).
Proof. reflexivity. Qed.

Lemma call_next (g : xorshift32) : call g = (next (seed_ g), mk (next (seed_ g))).
Proof. destruct g as [x]. reflexivity. Qed.

Lemma uint32_next (x : Z) : uint32 x -> uint32 (next x).
Proof.
  intros H. rewrite next_unfold.
  apply uint32_step_shl5, uint32_step_shr17, uint32_step_shl13, H.
Qed.

Lemma uint32_prev (y : Z) : uint32 y -> uint32 (prev y).
Proof.
  intros H. unfold prev.
  apply unshl_uint32, uint32_step_shr17, unshl_uint32, H.
Qed.

Lemma prev_next (x : Z) : uint32 x -> prev (next x) = x.
Proof.
  intros H. unfold prev. rewrite next_unfold.
  rewrite unshl_step_shl5.
  rewrite step_shr17_involutive by (apply uint32_step_shl13, H).
  apply unshl_step_shl13.
Qed.

Lemma next_prev (y : Z) : uint32 y -> next (prev y) = y.
Proof.
  intros H. unfold prev. rewrite next_unfold.
  rewrite step_shl13_unshl.
  rewrite step_shr17_involutive by (apply unshl_uint32, H).
  apply step_shl5_unshl.
Qed.

Lemma next_zero : next 0 = 0.
Proof. reflexivity. Qed.

Lemma next_nonzero (x : Z) : uint32 x -> x <> 0 -> next x <> 0.
Proof.
  intros H Hx Hn. apply Hx.
  rewrite <- (prev_next x H), Hn. reflexivity.
Qed.

Lemma discard_loop_seed (k : nat) (g : xorshift32) :
  seed_ (discard_loop k g) = Nat.iter k next (seed_ g).
Proof.
  revert g. induction k as [| k IH]; intros g; [reflexivity |].
  cbn [discard_loop]. rewrite IH, call_next. cbn [snd seed_].
  rewrite Nat.iter_succ_r. reflexivity.
Qed.

Lemma iter_next_nonzero (k : nat) (x : Z) :
  uint32 x -> x <> 0 ->
  uint32 (Nat.iter k next x) /\ Nat.iter k next x <> 0.
Proof.
  intros H Hx. induction k as [| k [IH1 IH2]]; simpl.
  - split; assumption.
  - split; [apply uint32_next | apply next_nonzero]; assumption.
Qed.

Lemma iter_next_zero (k : nat) : Nat.iter k next 0 = 0.
Proof. induction k as [| k IH]; simpl; [| rewrite IH]; reflexivity. Qed.

Lemma generate_S (k : nat) (g : xorshift32) :
  generate (S k) g
  = (next (seed_ g) :: fst (generate k (mk (next (seed_ g)))),
     snd (generate k (mk (next (seed_ g))))).
Proof.
  change (generate (S k) g)
    with (let (v, g1) := call g in
          let (vs, g2) := generate k g1 in (v :: vs, g2)).
  rewrite call_next.
  destruct (generate k (mk (next (seed_ g)))) as [vs g2]. reflexivity.
Qed.

Lemma generate_snd (k : nat) (g : xorshift32) :
  snd (generate k g) = discard_loop k g.
Proof.
  revert g. induction k as [| k IH]; intros g; [reflexivity |].
  rewrite generate_S. cbn [snd discard_loop]. rewrite IH, call_next.
  reflexivity.
Qed.

Lemma generate_fst (k : nat) (g : xorshift32) :
  fst (generate k g)
  = map (fun i => Nat.iter (S i) next (seed_ g)) (seq 0 k).
Proof.
  revert g. induction k as [| k IH]; intros g; [reflexivity |].
  rewrite generate_S. cbn [fst]. rewrite IH. cbn [seed_ seq map]. f_equal.
  rewrite <- seq_shift, map_map. apply map_ext. intros i.
  rewrite <- !Nat.iter_succ_r. reflexivity.
Qed.

End Transition.

(** ** xorshift32: the claims *)

Section Xorshift32Claims.

Import Xorshift32.

Lemma spec_transition_next (x : Z) : spec_transition x = next x.
Proof.
  rewrite next_unfold. unfold spec_transition, step_shl5, step_shr17,
    step_shl13, wrap32.
  rewrite !Z.shiftl_mul_pow2, !Z.shiftr_div_pow2 by lia. reflexivity.
Qed.

(** C1.  One generation call on a 32-bit state [x] computes
    [x ^= x << 13; x ^= x >> 17; x ^= x << 5] with 32-bit wrap-around,
    stores the result as the new state and returns it: the value returned
    and the state stored are both the transition the specification
    describes, and that value is again a 32-bit word. *)
Theorem xorshift32_call_transition (g : xorshift32) :
  uint32 (seed_ g) ->
  call g = (spec_transition (seed_ g), mk (spec_transition (seed_ g)))
  /\ fst (call g) = seed_ (snd (call g))
  /\ uint32 (fst (call g)).
Proof.
  intros H. rewrite call_next, spec_transition_next. cbn [fst snd seed_].
  split; [reflexivity | split; [reflexivity | apply uint32_next, H]].
Qed.

Lemma xorshift32_call_transition_witness :
  call default_ctor = (3244428, mk 3244428)
  /\ fst (call default_ctor) = seed_ (snd (call default_ctor))
  /\ uint32 (fst (call default_ctor)).
Proof.
  apply (xorshift32_call_transition default_ctor).
  unfold uint32. simpl. lia.
Defined.

(** C4.  For a nonzero 32-bit seed [s] and [n >= 0]: two generators
    constructed with seed [s] return the same values over any number [k] of
    generation calls (the i-th value is the transition iterated i+1 times on
    [s]); [discard(n)] followed by one generation call returns the last of
    the values of [n+1] successive calls; and [discard(n)] leaves the
    generator that [n] generation calls leave. *)
Theorem xorshift32_deterministic_discard (s n : Z) (k : nat) :
  uint32 s -> s <> 0 -> 0 <= n ->
  let g1 := ctor s in
  let g2 := ctor s in
  fst (generate k g1) = fst (generate k g2)
  /\ fst (generate k g1) = map (fun i => Nat.iter (S i) next s) (seq 0 k)
  /\ fst (call (discard n g1))
     = last (fst (generate (Z.to_nat (n + 1)) g2)) 0
  /\ discard n g1 = snd (generate (Z.to_nat n) g2).
Proof.
  intros Hs _ Hn g1 g2. subst g1 g2. unfold ctor.
  rewrite (wrap32_small s Hs).
  split; [reflexivity |].
  split; [rewrite generate_fst; reflexivity |].
  split; [| unfold discard; rewrite generate_snd; reflexivity].
  replace (Z.to_nat (n + 1)) with (S (Z.to_nat n)) by lia.
  unfold discard. generalize (Z.to_nat n) as m. clear n Hn.
  intros m. rewrite generate_fst, call_next, discard_loop_seed.
  cbn [fst seed_]. rewrite seq_S, map_app. cbn [map Nat.add].
  rewrite last_last. reflexivity.
Qed.

Lemma xorshift32_deterministic_discard_witness :
  fst (generate 3 (ctor 12)) = fst (generate 3 (ctor 12))
  /\ fst (generate 3 (ctor 12))
     = map (fun i => Nat.iter (S i) next 12) (seq 0 3)
  /\ fst (call (discard 2 (ctor 12)))
     = last (fst (generate (Z.to_nat (2 + 1)) (ctor 12))) 0
  /\ discard 2 (ctor 12) = snd (generate (Z.to_nat 2) (ctor 12)).
Proof.
  apply (xorshift32_deterministic_discard 12 2 3).
  - unfold uint32. simpl. lia.
  - discriminate.
  - lia.
Defined.

(** C8.  From state zero the generator only ever returns zero: a generation
    call on state 0 returns 0 and leaves state 0, and so do any number of
    successive calls. *)
Theorem xorshift32_zero_absorbing (k : nat) :
  call (mk 0) = (0, mk 0)
  /\ generate k (mk 0) = (repeat 0 k, mk 0)
  /\ discard_loop k (mk 0) = mk 0.
Proof.
  split; [reflexivity |].
  assert (Hg : generate k (mk 0) = (repeat 0 k, mk 0)).
  { induction k as [| k IH]; [reflexivity |].
    rewrite generate_S. cbn [seed_]. rewrite next_zero, IH. reflexivity. }
  split; [exact Hg |].
  rewrite <- generate_snd, Hg. reflexivity.
Qed.

(** C10.  A generation call on a nonzero 32-bit state leaves a nonzero
    32-bit state, and so does [discard(n)] for every [n]; the transition is a
    bijection on 32-bit words (every word has exactly one preimage) and the
    only preimage of 0 is 0. *)
Theorem xorshift32_nonzero_preserved (x n : Z) :
  uint32 x -> x <> 0 ->
  (uint32 (seed_ (snd (call (mk x)))) /\ seed_ (snd (call (mk x))) <> 0)
  /\ (uint32 (seed_ (discard n (mk x))) /\ seed_ (discard n (mk x)) <> 0)
  /\ (forall y, uint32 y ->
        exists x', (uint32 x' /\ next x' = y)
                   /\ forall x'', uint32 x'' -> next x'' = y -> x'' = x')
  /\ (forall x', uint32 x' -> next x' = 0 -> x' = 0).
Proof.
  intros H Hx. rewrite call_next. cbn [snd seed_].
  split; [split; [apply uint32_next | apply next_nonzero]; assumption |].
  split.
  { unfold discard. rewrite discard_loop_seed. cbn [seed_].
    apply iter_next_nonzero; assumption. }
  split.
  - intros y Hy. exists (prev y). split.
    + split; [apply uint32_prev, Hy | apply next_prev, Hy].
    + intros x'' Hx'' E. rewrite <- E. symmetry. apply prev_next, Hx''.
  - intros x' Hx' E. rewrite <- (prev_next x' Hx'), E. reflexivity.
Qed.

Lemma xorshift32_nonzero_preserved_witness :
  (uint32 (seed_ (snd (call (mk 12)))) /\ seed_ (snd (call (mk 12))) <> 0)
  /\ (uint32 (seed_ (discard 5 (mk 12))) /\ seed_ (discard 5 (mk 12)) <> 0)
  /\ (forall y, uint32 y ->
        exists x', (uint32 x' /\ next x' = y)
                   /\ forall x'', uint32 x'' -> next x'' = y -> x'' = x')
  /\ (forall x', uint32 x' -> next x' = 0 -> x' = 0).
Proof.
  apply (xorshift32_nonzero_preserved 12 5).
  - unfold uint32. simpl. lia.
  - discriminate.
Defined.

End Xorshift32Claims.

(** ** Strings *)

Section Strings.

Local Open Scope string_scope.

Lemma append_assoc (a b c : string) : (a ++ b) ++ c = a ++ (b ++ c).
Proof. induction a as [| x a IH]; simpl; [| rewrite IH]; reflexivity. Qed.

Lemma append_nil_r (a : string) : a ++ "" = a.
Proof. induction a as [| x a IH]; simpl; [| rewrite IH]; reflexivity. Qed.

End Strings.

(** ** Decimal output read back *)

Section Decimal.

Import Stream.
Local Open Scope string_scope.

Lemma digit_val_digit_char (d : Z) :
  (0 <= d < 10)%Z -> digit_val (digit_char d) = Some d.
Proof.
  intros H.
  assert (E : (d = 0 \/ d = 1 \/ d = 2 \/ d = 3 \/ d = 4 \/ d = 5 \/ d = 6
               \/ d = 7 \/ d = 8 \/ d = 9)%Z) by lia.
  repeat (destruct E as [E | E]; [subst d; reflexivity |]).
  subst d. reflexivity.
Qed.

Lemma digit_not_space (c : ascii) (d : Z) :
  digit_val c = Some d -> is_space c = false.
Proof.
  unfold digit_val, is_space. intros H.
  destruct (48 <=? Z.of_nat (nat_of_ascii c))%Z eqn:E1; [| discriminate].
  destruct (Z.of_nat (nat_of_ascii c) <=? 57)%Z eqn:E2; [| discriminate].
  apply Z.leb_le in E1. apply Z.leb_le in E2.
  apply Bool.orb_false_iff. split.
  - apply Nat.eqb_neq. lia.
  - apply Bool.andb_false_iff. right. apply Nat.leb_gt. lia.
Qed.

Lemma skipws_digit (s : string) : starts_with_digit s = true -> skipws s = s.
Proof.
  destruct s as [| c s]; [reflexivity |]. simpl.
  destruct (digit_val c) as [d |] eqn:E; [| discriminate].
  intros _. rewrite (digit_not_space c d E). reflexivity.
Qed.

Lemma put_digits_append (fuel : nat) (n : Z) (acc rest : string) :
  put_digits fuel n acc ++ rest = put_digits fuel n (acc ++ rest).
Proof.
  revert n acc. induction fuel as [| fuel IH]; intros n acc; [reflexivity |].
  cbn [put_digits]. destruct (n / 10 =? 0)%Z; [reflexivity |].
  rewrite IH. reflexivity.
Qed.

Lemma put_digits_starts (fuel : nat) (n : Z) (acc : string) :
  (0 <= n)%Z -> starts_with_digit (put_digits (S fuel) n acc) = true.
Proof.
  revert n acc. induction fuel as [| fuel IH]; intros n acc Hn.
  - cbn [put_digits].
    assert (Hd : starts_with_digit (String (digit_char (n mod 10)) acc) = true).
    { cbn [starts_with_digit]. rewrite digit_val_digit_char; [reflexivity |].
      apply Z.mod_pos_bound. lia. }
    destruct (n / 10 =? 0)%Z; exact Hd.
  - change (put_digits (S (S fuel)) n acc)
      with (if (n / 10 =? 0)%Z
            then String (digit_char (n mod 10)) acc
            else put_digits (S fuel) (n / 10)
                   (String (digit_char (n mod 10)) acc)).
    destruct (n / 10 =? 0)%Z.
    + cbn [starts_with_digit]. rewrite digit_val_digit_char; [reflexivity |].
      apply Z.mod_pos_bound. lia.
    + apply IH. apply Z.div_pos; lia.
Qed.

(** Reading the digits written for [n] continues from the accumulator
    shifted by their number, plus [n]. *)
Lemma get_put_digits (fuel : nat) (n : Z) (acc : string) :
  (0 <= n < 10 ^ Z.of_nat fuel)%Z ->
  exists len : nat, forall a : Z,
    get_digits a (put_digits fuel n acc)
    = get_digits (a * 10 ^ Z.of_nat len + n)%Z acc.
Proof.
  revert n acc. induction fuel as [| fuel IH]; intros n acc Hn.
  - exists O. intros a. cbn [put_digits]. f_equal.
    change (10 ^ Z.of_nat 0)%Z with 1%Z in *. lia.
  - assert (Hm : (0 <= n mod 10 < 10)%Z) by (apply Z.mod_pos_bound; lia).
    assert (Hstep : forall a,
      get_digits a (String (digit_char (n mod 10)) acc)
      = get_digits (a * 10 + n mod 10)%Z acc).
    { intros a. cbn [get_digits]. rewrite digit_val_digit_char by exact Hm.
      reflexivity. }
    cbn [put_digits]. destruct (n / 10 =? 0)%Z eqn:E.
    + exists 1%nat. intros a. rewrite Hstep. f_equal.
      apply Z.eqb_eq in E. change (10 ^ Z.of_nat 1)%Z with 10%Z.
      pose proof (Z.div_mod n 10). lia.
    + destruct (IH (n / 10)%Z (String (digit_char (n mod 10)) acc))
        as [len Hlen].
      { rewrite Nat2Z.inj_succ, Z.pow_succ_r in Hn by lia.
        split; [apply Z.div_pos; lia |].
        apply Z.div_lt_upper_bound; lia. }
      exists (S len). intros a. rewrite Hlen, Hstep. f_equal.
      rewrite Nat2Z.inj_succ, Z.pow_succ_r by lia.
      pose proof (Z.div_mod n 10). lia.
Qed.

Lemma get_digits_stop (a : Z) (rest : string) :
  starts_with_digit rest = false -> get_digits a rest = (a, rest).
Proof.
  destruct rest as [| c rest]; [reflexivity |]. simpl.
  destruct (digit_val c); [discriminate | reflexivity].
Qed.

(** On input that starts with a digit the extraction reads the digit run
    and checks its range. *)
Lemma get_uint32_digits (old : Z) (s : string) :
  starts_with_digit s = true ->
  get_uint32 old s
  = let (v, rest) := get_digits 0 s in
    if (v <=? uint32_max)%Z then (v, true, rest)
    else (uint32_max, false, rest).
Proof.
  intros H. unfold get_uint32. rewrite (skipws_digit s H).
  destruct s as [| c s']; [discriminate H |].
  assert (Hm : Ascii.eqb c "-" = false).
  { destruct (Ascii.eqb_spec c "-") as [-> | _]; [discriminate H |].
    reflexivity. }
  assert (Hp : Ascii.eqb c "+" = false).
  { destruct (Ascii.eqb_spec c "+") as [-> | _]; [discriminate H |].
    reflexivity. }
  rewrite Hm, Hp. cbn [orb]. cbv zeta. rewrite H. reflexivity.
Qed.

(** What [operator<<] writes for a 32-bit value is read back by
    [operator>>], up to the first character that is not a digit. *)
Lemma get_uint32_put_unsigned (old n : Z) (rest : string) :
  uint32 n -> starts_with_digit rest = false ->
  get_uint32 old (put_unsigned n ++ rest) = (n, true, rest).
Proof.
  intros Hn Hrest. unfold put_unsigned.
  rewrite put_digits_append. cbn [append].
  rewrite get_uint32_digits by (apply put_digits_starts; apply Hn).
  destruct (get_put_digits 20 n rest) as [len Hlen].
  { unfold uint32 in Hn. change (2 ^ 32)%Z with 4294967296%Z in Hn.
    change (10 ^ Z.of_nat 20)%Z with 100000000000000000000%Z. lia. }
  rewrite Hlen, Z.mul_0_l, Z.add_0_l, get_digits_stop by exact Hrest.
  unfold uint32 in Hn. unfold uint32_max.
  destruct (Z.leb_spec n (2 ^ 32 - 1)); [reflexivity | lia].
Qed.

End Decimal.

Section Xorshift32Serialization.

Import Xorshift32 Xorshift32IO.
Local Open Scope string_scope.

(** C5.  For a generator in any 32-bit state: the text [operator<<] writes
    to an empty stream, read by [operator>>] into a fresh generator, is read
    completely and without failure, gives a generator that compares equal to
    the original, and whose outputs over any number of generation calls are
    those of the original. *)
Theorem xorshift32_serialization_roundtrip
    (g fresh : xorshift32) (k : nat) :
  uint32 (seed_ g) ->
  let '(g', ok, rest) := read (write "" g) fresh in
  ok = true /\ rest = ""
  /\ eqb g' g = true /\ neqb g' g = false
  /\ g' = g
  /\ generate k g' = generate k g.
Proof.
  intros H. unfold read, write. cbn [append].
  rewrite <- (append_nil_r (Stream.put_unsigned (seed_ g))).
  rewrite get_uint32_put_unsigned by (exact H || reflexivity).
  destruct g as [x]. cbn [seed_]. unfold eqb, neqb. cbn [seed_].
  rewrite Z.eqb_refl. repeat split.
Qed.

Lemma xorshift32_serialization_roundtrip_witness :
  let '(g', ok, rest) := read (write "" (mk 3244428)) default_ctor in
  ok = true /\ rest = ""
  /\ eqb g' (mk 3244428) = true /\ neqb g' (mk 3244428) = false
  /\ g' = mk 3244428
  /\ generate 4 g' = generate 4 (mk 3244428).
Proof.
  apply (xorshift32_serialization_roundtrip (mk 3244428) default_ctor 4).
  unfold uint32. simpl. lia.
Defined.

End Xorshift32Serialization.

(** ** The formatter *)

Section FormatterScalars.

Import Formatter FormatterSpec.
Local Open Scope string_scope.

Lemma print_streamable_text (sep end_ : ascii) (args : list string)
    (out : string) :
  print_streamable sep end_ args out
  = out ++ each_followed_by sep args ++ String end_ "".
Proof.
  revert out. induction args as [| first rest IH]; intros out;
    [reflexivity |].
  cbn [print_streamable each_followed_by]. rewrite IH.
  rewrite !append_assoc. reflexivity.
Qed.

Variable T : Type.
Variable neq : T -> T -> bool.
Variable show : T -> string.

Lemma each_followed_by_app (sep : ascii) (l1 l2 : list string) :
  each_followed_by sep (l1 ++ l2)
  = each_followed_by sep l1 ++ each_followed_by sep l2.
Proof.
  induction l1 as [| x l1 IH]; [reflexivity |].
  cbn [app each_followed_by]. rewrite IH, !append_assoc. reflexivity.
Qed.

(** With further arguments behind it, [first] is treated by the variadic
    overload. *)
Lemma print_more (sep end_ : ascii) (first : printable T)
    (rest : list (printable T)) (out : string) :
  rest <> [] ->
  print T neq show sep end_ (first :: rest) out
  = match print_first T neq show sep first out with
    | None => None
    | Some out' => print T neq show sep end_ rest out'
    end.
Proof. destruct rest; [congruence | reflexivity]. Qed.

Lemma print_single_scalar (sep end_ : ascii) (text out : string) :
  print T neq show sep end_ [Scalar text] out
  = Some (out ++ text ++ String sep "" ++ String end_ "").
Proof.
  cbn. unfold print_nullary. rewrite !append_assoc. reflexivity.
Qed.

Lemma print_single_container (sep end_ : ascii) (a : printable T)
    (output : list T) (out : string) :
  container T a = Some output ->
  print T neq show sep end_ [a] out
  = print_container T neq show sep end_ output out.
Proof. intros H. cbn [print]. rewrite H. reflexivity. Qed.

(** Stream-writable arguments with further arguments behind them are
    written one after the other, each followed by [sep]. *)
Lemma print_streamed_front (sep end_ : ascii) (front : list (printable T))
    (texts : list string) (rest : list (printable T)) (out : string) :
  map (streamed T) front = map Some texts -> rest <> [] ->
  print T neq show sep end_ (front ++ rest) out
  = print T neq show sep end_ rest (out ++ each_followed_by sep texts).
Proof.
  intros H Hrest. revert texts out H.
  induction front as [| a front IH]; intros texts out H.
  - destruct texts; [| discriminate H]. cbn [app each_followed_by].
    rewrite append_nil_r. reflexivity.
  - destruct texts as [| text texts]; [discriminate H |].
    cbn [map] in H. injection H as Ha H.
    cbn [app]. rewrite print_more
      by (destruct front; [exact Hrest | discriminate]).
    assert (E : print_first T neq show sep a out
                = Some (out ++ text ++ String sep "")).
    { destruct a; cbn in Ha; try discriminate Ha;
        injection Ha as ->; reflexivity. }
    rewrite E, (IH texts _ H). cbn [each_followed_by].
    rewrite !append_assoc. reflexivity.
Qed.

End FormatterScalars.

Section FormatterContainer.

Import Formatter FormatterSpec.
Local Open Scope string_scope.

Variable T : Type.
Variable neq : T -> T -> bool.
Variable show : T -> string.

Lemma deref_app (pre suf : list T) (elem : T) :
  deref T (pre ++ elem :: suf) (Z.of_nat (List.length pre)) = Some elem.
Proof.
  unfold deref.
  destruct (Z.ltb_spec (Z.of_nat (List.length pre)) 0) as [H | H]; [lia |].
  rewrite Nat2Z.id, nth_error_app2, Nat.sub_diag by lia. reflexivity.
Qed.

Lemma deref_in_range (output : list T) (it : Z) :
  (0 <= it < end_pos T output)%Z -> exists elem, deref T output it = Some elem.
Proof.
  unfold end_pos, deref. intros H.
  destruct (Z.ltb_spec it 0) as [H' | _]; [lia |].
  destruct (nth_error output (Z.to_nat it)) as [elem |] eqn:E.
  - exists elem. reflexivity.
  - apply nth_error_None in E. lia.
Qed.

Lemma deref_out_of_range (output : list T) (it : Z) :
  (it < 0 \/ end_pos T output <= it)%Z -> deref T output it = None.
Proof.
  unfold end_pos, deref. intros H.
  destruct (Z.ltb_spec it 0) as [H' | H']; [reflexivity |].
  apply nth_error_None. lia.
Qed.

Lemma deref_last (init : list T) (last_elem : T) :
  deref T (init ++ [last_elem]) (end_pos T (init ++ [last_elem]) - 1)
  = Some last_elem.
Proof.
  unfold end_pos. rewrite length_app. cbn [List.length].
  replace (Z.of_nat (List.length init + 1) - 1)%Z
    with (Z.of_nat (List.length init)) by lia.
  apply deref_app.
Qed.

Lemma print_elem_text (sep end_ : ascii) (last_elem elem : T)
    (out : string) :
  print_elem T neq show sep end_ last_elem elem out
  = out ++ elem_text T neq show sep end_ last_elem elem.
Proof.
  unfold print_elem, elem_text, with_comma, with_brace.
  destruct (neq elem last_elem); rewrite print_streamable_text;
    cbn [each_followed_by]; rewrite ?append_assoc, ?append_nil_r;
    reflexivity.
Qed.

(** The loop, started at the position after [pre], writes the text of
    every remaining element and never reads out of range. *)
Lemma range_for_text (sep end_ : ascii) (last_elem : T) (suf pre : list T)
    (out : string) :
  range_for T neq show (List.length suf) (Z.of_nat (List.length pre))
    sep end_ (pre ++ suf) last_elem out
  = Some (out ++ elems_text T neq show sep end_ last_elem suf).
Proof.
  revert pre out. induction suf as [| elem suf IH]; intros pre out.
  - cbn [List.length range_for elems_text]. rewrite append_nil_r.
    reflexivity.
  - cbn [List.length range_for elems_text]. rewrite deref_app.
    replace (Z.of_nat (List.length pre) + 1)%Z
      with (Z.of_nat (List.length (pre ++ [elem])))
      by (rewrite length_app; cbn [List.length]; lia).
    replace (pre ++ elem :: suf)%list with ((pre ++ [elem]) ++ suf)%list
      by (rewrite <- app_assoc; reflexivity).
    rewrite IH, print_elem_text, append_assoc. reflexivity.
Qed.

Lemma print_container_text (sep end_ : ascii) (output : list T)
    (last_elem : T) (out : string) :
  deref T output (end_pos T output - 1) = Some last_elem ->
  print_container T neq show sep end_ output out
  = Some (out ++ opening sep
              ++ elems_text T neq show sep end_ last_elem output).
Proof.
  intros H. unfold print_container. rewrite H.
  rewrite (range_for_text sep end_ last_elem output []).
  rewrite print_streamable_text. cbn [each_followed_by]. unfold opening.
  rewrite !append_assoc, ?append_nil_r. reflexivity.
Qed.

Lemma elems_text_app (sep end_ : ascii) (last_elem : T) (l1 l2 : list T) :
  elems_text T neq show sep end_ last_elem (l1 ++ l2)
  = elems_text T neq show sep end_ last_elem l1
    ++ elems_text T neq show sep end_ last_elem l2.
Proof.
  induction l1 as [| x l1 IH]; [reflexivity |].
  cbn [app elems_text]. rewrite IH, append_assoc. reflexivity.
Qed.

Lemma elems_text_commas (sep end_ : ascii) (last_elem : T) (l : list T) :
  forallb (fun p => neq p last_elem) l = true ->
  elems_text T neq show sep end_ last_elem l = commas_text T show sep l.
Proof.
  induction l as [| x l IH]; [reflexivity |].
  cbn [forallb elems_text commas_text]. intros H.
  apply Bool.andb_true_iff in H. destruct H as [Hx Hl].
  unfold elem_text. rewrite Hx, (IH Hl). reflexivity.
Qed.

Lemma append_length (a b : string) :
  String.length (a ++ b) = (String.length a + String.length b)%nat.
Proof. induction a as [| x a IH]; simpl; [| rewrite IH]; reflexivity. Qed.

Lemma elem_text_length (sep end_ : ascii) (last_elem elem : T) :
  (0 < String.length (elem_text T neq show sep end_ last_elem elem))%nat.
Proof.
  unfold elem_text, with_comma, with_brace.
  destruct (neq elem last_elem); rewrite append_length; simpl; lia.
Qed.

Lemma elems_text_length (sep end_ : ascii) (last_elem : T) (l : list T) :
  l <> [] ->
  (0 < String.length (elems_text T neq show sep end_ last_elem l))%nat.
Proof.
  destruct l as [| x l]; [congruence |]. intros _.
  cbn [elems_text]. rewrite append_length.
  pose proof (elem_text_length sep end_ last_elem x). lia.
Qed.

End FormatterContainer.

(** ** The formatter: the claims *)

Section FormatterClaims.

Import Formatter FormatterSpec.
Local Open Scope string_scope.

(** C3 as stated fails: [print(1, 2, 3)] with the default separator and
    terminator does not write the last value followed by the terminator
    alone, it writes ["1 2 3 "] and then the terminator. *)
Lemma print_last_followed_by_end_counterexample :
  print Z neqZ Stream.put_signed " " "010"
    [Scalar "1"; Scalar "2"; Scalar "3"] ""
  <> Some (last_followed_by_end " " "010" ["1"; "2"; "3"]).
Proof. vm_compute. intros H. discriminate H. Qed.

(** C3, amended.  For every call [print(sep, end, v1, ..., vn)] whose
    arguments are stream-writable and whose last argument is a scalar
    (stream-writable and not a container), every value, the last one
    included, is written followed by [sep], and [end] is written once after
    the last [sep]; [print(a, b, c)] on scalars writes
    [a sep b sep c sep end].  A last argument that is stream-writable and
    also a container is not streamed: after the values before it, it is
    rendered by the container overload. *)
Theorem print_scalars_each_followed_by_sep
    (T : Type) (neq : T -> T -> bool) (show : T -> string)
    (sep end_ : ascii) (front : list (printable T)) (texts : list string)
    (v : string) (out : string) :
  map (streamed T) front = map Some texts ->
  print T neq show sep end_ (front ++ [Scalar v]) out
  = Some (out ++ each_followed_by sep (texts ++ [v]) ++ String end_ "")
  /\ (forall a b c : string,
        print T neq show sep end_ [Scalar a; Scalar b; Scalar c] out
        = Some (out ++ a ++ String sep "" ++ b ++ String sep ""
                    ++ c ++ String sep "" ++ String end_ ""))
  /\ (forall (text : string) (output : list T),
        print T neq show sep end_ (front ++ [Both text output]) out
        = print_container T neq show sep end_ output
            (out ++ each_followed_by sep texts)).
Proof.
  intros H. split; [| split].
  - rewrite (print_streamed_front T neq show sep end_ front texts)
      by (exact H || discriminate).
    rewrite print_single_scalar, each_followed_by_app.
    cbn [each_followed_by]. rewrite !append_assoc, ?append_nil_r.
    reflexivity.
  - intros a b c.
    rewrite (print_streamed_front T neq show sep end_
               [Scalar a; Scalar b] [a; b] [Scalar c])
      by (reflexivity || discriminate).
    rewrite print_single_scalar. cbn [each_followed_by].
    rewrite !append_assoc, ?append_nil_r. reflexivity.
  - intros text output.
    rewrite (print_streamed_front T neq show sep end_ front texts)
      by (exact H || discriminate).
    apply print_single_container. reflexivity.
Qed.

Lemma print_scalars_each_followed_by_sep_witness :
  print Z neqZ Stream.put_signed " " "010"
    ([Scalar "1"; Both "ab" [7%Z]] ++ [Scalar "3"])%list ""
  = Some ("" ++ each_followed_by " " (["1"; "ab"] ++ ["3"])%list
             ++ String "010" "")
  /\ (forall a b c : string,
        print Z neqZ Stream.put_signed " " "010"
          [Scalar a; Scalar b; Scalar c] ""
        = Some ("" ++ a ++ String " " "" ++ b ++ String " " ""
                   ++ c ++ String " " "" ++ String "010" ""))
  /\ (forall (text : string) (output : list Z),
        print Z neqZ Stream.put_signed " " "010"
          ([Scalar "1"; Both "ab" [7%Z]] ++ [Both text output])%list ""
        = print_container Z neqZ Stream.put_signed " " "010" output
            ("" ++ each_followed_by " " ["1"; "ab"])).
Proof.
  apply (print_scalars_each_followed_by_sep Z neqZ Stream.put_signed
           " " "010" [Scalar "1"; Both "ab" [7%Z]] ["1"; "ab"] "3" "").
  reflexivity.
Defined.

(** C7 as stated fails: for the container [{3, 1, 3}] the rendering does
    not stop at the first element equal to the last one. *)
Lemma print_container_early_stop_counterexample :
  print_containerZ " " "010" [3; 1; 3]%Z ""
  <> Some (early_stop_text Z Stream.put_signed " " "010" [] 3%Z).
Proof. vm_compute. intros H. discriminate H. Qed.

(** C7, amended.  For a container [pre ++ x :: post] with [post] not empty
    in which [x] is the first element comparing equal to the true last
    element: the elements of [pre] are written with commas, [x] is written
    with the closing brace and the terminator, and the rendering does not
    stop there: every element of [post] is still written after it, each
    with a comma or, when it compares equal to the last element, with
    another closing brace and terminator. *)
Theorem print_container_duplicate_of_last
    (T : Type) (neq : T -> T -> bool) (show : T -> string)
    (sep end_ : ascii) (pre post : list T) (x last_elem : T)
    (out : string) :
  post <> [] ->
  deref T (pre ++ x :: post) (end_pos T (pre ++ x :: post) - 1)
  = Some last_elem ->
  forallb (fun p => neq p last_elem) pre = true ->
  neq x last_elem = false ->
  print_container T neq show sep end_ (pre ++ x :: post) out
  = Some (out ++ early_stop_text T show sep end_ pre x
              ++ elems_text T neq show sep end_ last_elem post)
  /\ (0 < String.length (elems_text T neq show sep end_ last_elem post))%nat.
Proof.
  intros Hpost Hlast Hpre Hx. split.
  - rewrite (print_container_text T neq show sep end_ _ last_elem out Hlast).
    rewrite elems_text_app. cbn [elems_text].
    rewrite (elems_text_commas T neq show sep end_ last_elem pre Hpre).
    unfold elem_text at 1. rewrite Hx. unfold early_stop_text.
    rewrite !append_assoc. reflexivity.
  - apply elems_text_length. exact Hpost.
Qed.

Lemma print_container_duplicate_of_last_witness :
  print_containerZ " " "010" ([2%Z] ++ 3%Z :: [1%Z; 3%Z])%list ""
  = Some ("" ++ early_stop_text Z Stream.put_signed " " "010" [2%Z] 3%Z
             ++ elems_text Z neqZ Stream.put_signed " " "010" 3%Z [1; 3]%Z)
  /\ (0 < String.length
            (elems_text Z neqZ Stream.put_signed " " "010" 3%Z [1; 3]%Z))%nat.
Proof.
  apply (print_container_duplicate_of_last Z neqZ Stream.put_signed
           " " "010" [2%Z] [1; 3]%Z 3%Z 3%Z "").
  - discriminate.
  - reflexivity.
  - reflexivity.
  - reflexivity.
Defined.

(** C9.  For a non-empty container every element access of the container
    print routine is in range: the one-before-end read of the last element
    has a result, so has the read at every position of the loop, and the
    routine returns its output; for the empty container the one-before-end
    read has no result and neither has the routine. *)
Theorem print_container_accesses_in_range
    (T : Type) (neq : T -> T -> bool) (show : T -> string)
    (sep end_ : ascii) (output : list T) (out : string) :
  output <> [] ->
  (exists last_elem,
      deref T output (end_pos T output - 1) = Some last_elem)
  /\ (forall it, (0 <= it < end_pos T output)%Z ->
        exists elem, deref T output it = Some elem)
  /\ (exists out', print_container T neq show sep end_ output out = Some out')
  /\ deref T [] (end_pos T [] - 1) = None
  /\ print_container T neq show sep end_ [] out = None.
Proof.
  intros Hne.
  destruct (exists_last Hne) as [init [last_elem E]]. subst output.
  split; [exists last_elem; apply deref_last |].
  split; [intros it Hit; apply deref_in_range; exact Hit |].
  split; [| split; reflexivity].
  eexists. apply print_container_text. apply deref_last.
Qed.

Lemma print_container_accesses_in_range_witness :
  (exists last_elem,
      deref Z [1; 2; 3]%Z (end_pos Z [1; 2; 3]%Z - 1) = Some last_elem)
  /\ (forall it, (0 <= it < end_pos Z [1; 2; 3]%Z)%Z ->
        exists elem, deref Z [1; 2; 3]%Z it = Some elem)
  /\ (exists out',
        print_container Z neqZ Stream.put_signed " " "010" [1; 2; 3]%Z ""
        = Some out')
  /\ deref Z [] (end_pos Z [] - 1) = None
  /\ print_container Z neqZ Stream.put_signed " " "010" [] "" = None.
Proof.
  apply (print_container_accesses_in_range Z neqZ Stream.put_signed
           " " "010" [1; 2; 3]%Z "").
  discriminate.
Defined.

End FormatterClaims.

(** ** human_readable_time *)

Section TimingClaims.

Import Timing.
Local Open Scope string_scope.

(** Below one hour the source selects the documented unit and computes the
    documented truncating quotients. *)
Lemma human_readable_time_below_hour (diff : Z) :
  (diff < 3600 * 1000000000)%Z ->
  human_readable_time diff = spec_human_readable_time diff.
Proof.
  intros H. unfold human_readable_time, spec_human_readable_time, spec_units.
  change (1000000000 * 60)%Z with 60000000000%Z.
  change (60 * 1000000000)%Z with 60000000000%Z.
  change (1000000000 * 3600)%Z with 3600000000000%Z.
  change (3600 * 1000000000)%Z with 3600000000000%Z in *.
  destruct (Z.ltb_spec diff 1000);
    [cbn [spaced]; rewrite !Z.quot_1_r; reflexivity |].
  destruct (Z.ltb_spec diff 1000000);
    [cbn [spaced]; rewrite !Z.quot_1_r; reflexivity |].
  destruct (Z.ltb_spec diff 1000000000); [reflexivity |].
  destruct (Z.ltb_spec diff 60000000000); [reflexivity |].
  destruct (Z.ltb_spec diff 3600000000000); [reflexivity | lia].
Qed.

(** From one hour on the unit and the coarse magnitude are the documented
    ones, and the fine magnitude is the quotient by 60e6. *)
Lemma human_readable_time_from_hour (diff : Z) :
  (3600 * 1000000000 <= diff)%Z ->
  human_readable_time diff
  = mkHRT " h" " m" (Z.quot diff 3600000000000) (Z.quot diff 60000000) diff.
Proof.
  intros H. unfold human_readable_time.
  change (1000000000 * 60)%Z with 60000000000%Z.
  change (1000000000 * 3600)%Z with 3600000000000%Z.
  change (3600 * 1000000000)%Z with 3600000000000%Z in *.
  destruct (Z.ltb_spec diff 1000); [lia |].
  destruct (Z.ltb_spec diff 1000000); [lia |].
  destruct (Z.ltb_spec diff 1000000000); [lia |].
  destruct (Z.ltb_spec diff 60000000000); [lia |].
  destruct (Z.ltb_spec diff 3600000000000); [lia | reflexivity].
Qed.

(** The units selected for the six sample inputs. *)
Lemma human_readable_time_sample_units :
  map (fun d => (unit (human_readable_time d),
                 unit_fine (human_readable_time d)))
    [500; 1500; 2500000; 1500000000; 90000000000; 5000000000000]%Z
  = [(" ns", ""); (" µs", ""); (" ms", " µs"); (" s", " ms");
     (" m", " s"); (" h", " m")].
Proof. reflexivity. Qed.

(** C2, at the input 5,000,000,000,000 ns: the unit is "h" with fine unit
    "m" and coarse magnitude 1 as documented, but the fine magnitude the
    source computes is the raw count divided by 60e6, 83333, where the
    documented divisor 60e9 gives 83 minutes. *)
Theorem human_readable_time_hours_fine_divisor :
  human_readable_time 5000000000000
  = mkHRT " h" " m" 1 83333 5000000000000
  /\ spec_human_readable_time 5000000000000
     = mkHRT " h" " m" 1 83 5000000000000
  /\ diff_fine (human_readable_time 5000000000000)
     = Z.quot 5000000000000 60000000
  /\ diff_fine (human_readable_time 5000000000000)
     <> Z.quot 5000000000000 (60 * 1000000000).
Proof.
  split; [reflexivity |]. split; [reflexivity |].
  split; [reflexivity |]. vm_compute. discriminate.
Qed.

End TimingClaims.

(** ** The scope Timer *)

Section TimerClaims.

Import Timing.

(** What the calls between construction and destruction leave: one report
    for each [stop()], and the flag set as soon as there was one. *)
Lemma run_reports (ops : list op) (t : Timer) (cout : list string) :
  List.length (snd (run ops t cout))
  = (List.length cout + List.length (filter is_stop ops))%nat
  /\ stopped (fst (run ops t cout)) = (stopped t || existsb is_stop ops)%bool.
Proof.
  revert t cout. induction ops as [| o ops IH]; intros t cout.
  - cbn. split; [lia | rewrite Bool.orb_false_r; reflexivity].
  - destruct o as [now | now ctime].
    + cbn [run filter is_stop existsb]. destruct (IH (restart now t) cout)
        as [IH1 IH2].
      rewrite IH1, IH2. split; reflexivity.
    + cbn [run filter is_stop existsb]. unfold stop.
      match goal with
      | |- context [run ops ?t' ?c'] => destruct (IH t' c') as [IH1 IH2]
      end.
      rewrite IH1, IH2. rewrite length_app. cbn [List.length stopped].
      split; [lia | rewrite Bool.orb_true_r; reflexivity].
Qed.

Lemma dtor_reports (now : Z) (ctime : string) (t : Timer)
    (cout : list string) :
  List.length (dtor now ctime t cout)
  = (List.length cout + if stopped t then 0 else 1)%nat.
Proof.
  unfold dtor, stop. destruct (stopped t); cbn [negb snd].
  - lia.
  - rewrite length_app. reflexivity.
Qed.

Lemma existsb_filter_length {A : Type} (f : A -> bool) (l : list A) :
  existsb f l = negb (Nat.eqb (List.length (filter f l)) 0).
Proof.
  induction l as [| x l IH]; [reflexivity |].
  cbn [existsb filter]. destruct (f x); [reflexivity | exact IH].
Qed.

Lemma lifetime_reports (start : Z) (ops : list op) (now : Z)
    (ctime : string) (cout : list string) :
  List.length (lifetime start ops now ctime cout)
  = (List.length cout + Nat.max 1 (List.length (filter is_stop ops)))%nat.
Proof.
  unfold lifetime.
  destruct (run_reports ops (ctor start) cout) as [H1 H2].
  destruct (run ops (ctor start) cout) as [t cout'].
  cbn [fst snd] in *. rewrite dtor_reports, H1, H2.
  cbn [ctor stopped orb]. rewrite existsb_filter_length.
  destruct (List.length (filter is_stop ops)) as [| m]; cbn; lia.
Qed.

(** C6 as stated fails: a lifetime without any [restart()] in which
    [stop()] is called twice emits two reports. *)
Lemma timer_at_most_one_report_counterexample :
  ~ (forall (start : Z) (ops : list op) (now : Z) (ctime : string),
       existsb is_restart ops = false ->
       (List.length (lifetime start ops now ctime []) <= 1)%nat).
Proof.
  intros H.
  specialize (H 0%Z [Stop 10 "a"; Stop 20 "b"] 30%Z "c"%string eq_refl).
  vm_compute in H. lia.
Qed.

(** C6, amended.  In every Timer lifetime the number of reports is the
    number of explicit [stop()] calls, and one when there was none: the
    destructor reports exactly when [stop()] was never called, and
    [restart()] calls do not change the number.  So a Timer that goes out
    of scope without a [stop()] emits exactly one report, and a Timer on
    which [stop()] is called once emits exactly one report in total. *)
Theorem timer_reports_per_lifetime
    (start : Z) (ops : list op) (now : Z) (ctime : string)
    (cout : list string) :
  List.length (lifetime start ops now ctime cout)
  = (List.length cout + Nat.max 1 (List.length (filter is_stop ops)))%nat
  /\ List.length (lifetime start [] now ctime cout)
     = (List.length cout + 1)%nat
  /\ (forall now1 ctime1,
        List.length (lifetime start [Stop now1 ctime1] now ctime cout)
        = (List.length cout + 1)%nat)
  /\ (forall now1 ctime1,
        lifetime start [Stop now1 ctime1] now ctime cout
        = snd (stop now1 ctime1 (ctor start) cout)).
Proof.
  split; [apply lifetime_reports |].
  split; [rewrite lifetime_reports; reflexivity |].
  split; intros now1 ctime1; [rewrite lifetime_reports |]; reflexivity.
Qed.

End TimerClaims.

(** * Further properties of the code *)

(** ** xorshift32 as an engine *)

Section Xorshift32Engine.

Import Xorshift32.

Lemma next_injective (x y : Z) : uint32 x -> uint32 y -> next x = next y -> x = y.
Proof.
  intros Hx Hy E. rewrite <- (prev_next x Hx), <- (prev_next y Hy), E.
  reflexivity.
Qed.

Lemma discard_loop_add (m n : nat) (g : xorshift32) :
  discard_loop (m + n) g = discard_loop n (discard_loop m g).
Proof.
  revert g. induction m as [| m IH]; intros g; [reflexivity |].
  cbn [Nat.add discard_loop]. apply IH.
Qed.

(** X1.  Started from a nonzero 32-bit state, every value returned lies in
    the engine's range and is never its lower bound:
    [min() < v <= max()], over any number of generation calls, and the
    state left is again a nonzero 32-bit word. *)
Theorem xorshift32_outputs_in_range (g : xorshift32) (k : nat) :
  uint32 (seed_ g) -> seed_ g <> 0 ->
  Forall (fun v => Xorshift32.min < v <= Xorshift32.max) (fst (generate k g))
  /\ uint32 (seed_ (snd (generate k g)))
  /\ seed_ (snd (generate k g)) <> 0.
Proof.
  intros H Hnz. split.
  - rewrite generate_fst. apply Forall_forall. intros v Hv.
    apply in_map_iff in Hv. destruct Hv as [i [<- _]].
    destruct (iter_next_nonzero (S i) (seed_ g) H Hnz) as [[H0 H1] H2].
    unfold Xorshift32.min, Xorshift32.max, uint32_min, uint32_max. lia.
  - rewrite generate_snd, discard_loop_seed.
    apply iter_next_nonzero; assumption.
Qed.

Lemma xorshift32_outputs_in_range_witness :
  Forall (fun v => Xorshift32.min < v <= Xorshift32.max)
    (fst (generate 5 default_ctor))
  /\ uint32 (seed_ (snd (generate 5 default_ctor)))
  /\ seed_ (snd (generate 5 default_ctor)) <> 0.
Proof.
  apply (xorshift32_outputs_in_range default_ctor 5).
  - unfold uint32. simpl. lia.
  - discriminate.
Defined.

(** X2.  [discard] composes additively: for [a, b >= 0], [discard(a + b)]
    is [discard(a)] followed by [discard(b)]; and [discard(z)] with
    [z <= 0] leaves the generator as it is. *)
Theorem xorshift32_discard_add (a b z : Z) (g : xorshift32) :
  0 <= a -> 0 <= b -> z <= 0 ->
  discard (a + b) g = discard b (discard a g)
  /\ discard z g = g.
Proof.
  intros Ha Hb Hz. unfold discard. split.
  - rewrite Z2Nat.inj_add by assumption. apply discard_loop_add.
  - replace (Z.to_nat z) with O by lia. reflexivity.
Qed.

Lemma xorshift32_discard_add_witness :
  discard (2 + 3) default_ctor = discard 3 (discard 2 default_ctor)
  /\ discard (-4) default_ctor = default_ctor.
Proof.
  apply (xorshift32_discard_add 2 3 (-4) default_ctor); lia.
Defined.

(** X3.  On 32-bit states [operator==] decides whether two generators
    return the same next value: they compare equal exactly when one
    generation call on each returns the same value; and [operator!=] is
    the negation of [operator==]. *)
Theorem xorshift32_eq_iff_same_output (g1 g2 : xorshift32) :
  uint32 (seed_ g1) -> uint32 (seed_ g2) ->
  (eqb g1 g2 = true <-> fst (call g1) = fst (call g2))
  /\ neqb g1 g2 = negb (eqb g1 g2).
Proof.
  intros H1 H2. split; [| reflexivity].
  unfold eqb. rewrite !call_next. cbn [fst]. rewrite Z.eqb_eq. split.
  - intros E. rewrite E. reflexivity.
  - apply next_injective; assumption.
Qed.

Lemma xorshift32_eq_iff_same_output_witness :
  (eqb default_ctor (mk 77) = true
   <-> fst (call default_ctor) = fst (call (mk 77)))
  /\ neqb default_ctor (mk 77) = negb (eqb default_ctor (mk 77)).
Proof.
  apply (xorshift32_eq_iff_same_output default_ctor (mk 77));
    unfold uint32; simpl; lia.
Defined.

(** X4.  [discard(n)] followed by [k] generation calls returns the values
    that [n + k] calls on the untouched generator return after their first
    [n]. *)
Theorem xorshift32_discard_skips (n : Z) (k : nat) (g : xorshift32) :
  fst (generate k (discard n g))
  = skipn (Z.to_nat n) (fst (generate (Z.to_nat n + k) g)).
Proof.
  unfold discard. generalize (Z.to_nat n) as m. intros m.
  rewrite !generate_fst, discard_loop_seed, skipn_map, skipn_seq.
  replace (m + k - m)%nat with k by lia. cbn [Nat.add].
  rewrite <- (map_id (seq 0 k)) at 1.
  replace (seq m k) with (map (fun i => (i + m)%nat) (seq 0 k)).
  - rewrite !map_map. apply map_ext. intros i.
    rewrite <- Nat.iter_add. reflexivity.
  - clear. induction m as [| m IH].
    + rewrite <- (map_id (seq 0 k)) at 2. apply map_ext. intros i. lia.
    + rewrite <- seq_shift, <- IH, map_map. apply map_ext. intros i. lia.
Qed.

End Xorshift32Engine.

(** ** xorshift32: more than one generator on a stream *)

Section Xorshift32Streams.

Import Xorshift32 Xorshift32IO.
Local Open Scope string_scope.




(** X6.  [operator<<] writes no delimiter: when two generators are written
    back to back, one read consumes the digits of both and leaves nothing
    on the stream for a second read; when that read succeeds, the state it
    stores is at least the state of the second generator written. *)
Theorem xorshift32_back_to_back_merges (g1 g2 fresh : xorshift32) :
  uint32 (seed_ g1) -> uint32 (seed_ g2) ->
  exists g' ok,
    read (write (write "" g1) g2) fresh = (g', ok, "")
    /\ (ok = true -> seed_ g2 <= seed_ g').
Proof.
  intros H1 H2. destruct g1 as [a], g2 as [b]. cbn [seed_] in *.
  unfold read, write. cbn [seed_].
  change ("" ++ Stream.put_unsigned a) with (Stream.put_unsigned a).
  remember (Stream.put_unsigned b) as pb eqn:Epb.
  unfold Stream.put_unsigned. rewrite put_digits_append. cbn [append].
  rewrite get_uint32_digits by (apply put_digits_starts; apply H1).
  assert (B : forall n, uint32 n -> 0 <= n < 10 ^ Z.of_nat 20).
  { intros n Hn. unfold uint32 in Hn.
    change (2 ^ 32) with 4294967296 in Hn.
    change (10 ^ Z.of_nat 20) with 100000000000000000000. lia. }
  destruct (get_put_digits 20 a pb (B a H1)) as [la Ha].
  destruct (get_put_digits 20 b "" (B b H2)) as [lb Hb].
  rewrite Ha. subst pb. unfold Stream.put_unsigned. rewrite Hb.
  cbn [Stream.get_digits].
  assert (Hv : b <= (0 * 10 ^ Z.of_nat la + a) * 10 ^ Z.of_nat lb + b).
  { assert (0 < 10 ^ Z.of_nat lb) by (apply Z.pow_pos_nonneg; lia).
    unfold uint32 in H1. nia. }
  destruct (_ <=? uint32_max)%Z.
  - eexists. exists true. split; [reflexivity |]. intros _. exact Hv.
  - eexists. exists false. split; [reflexivity | discriminate].
Qed.

Lemma xorshift32_back_to_back_merges_witness :
  exists g' ok,
    read (write (write "" (mk 12)) (mk 34)) default_ctor = (g', ok, "")
    /\ (ok = true -> seed_ (mk 34) <= seed_ g').
Proof.
  apply (xorshift32_back_to_back_merges (mk 12) (mk 34) default_ctor);
    unfold uint32; simpl; lia.
Defined.

End Xorshift32Streams.

(** ** The formatter: containers and mixed arguments *)

Section FormatterMore.

Import Formatter FormatterSpec.
Local Open Scope string_scope.

Variable T : Type.
Variable neq : T -> T -> bool.
Variable show : T -> string.

Lemma print_container_empty (sep end_ : ascii) (out : string) :
  print_container T neq show sep end_ [] out = None.
Proof. reflexivity. Qed.

Lemma print_container_nonempty (sep end_ : ascii) (output : list T)
    (out : string) :
  output <> [] ->
  exists last_elem,
    deref T output (end_pos T output - 1) = Some last_elem
    /\ print_container T neq show sep end_ output out
       = Some (out ++ opening sep
                   ++ elems_text T neq show sep end_ last_elem output).
Proof.
  intros Hne. destruct (exists_last Hne) as [init [last_elem E]].
  subst output. exists last_elem. split; [apply deref_last |].
  apply print_container_text. apply deref_last.
Qed.

Lemma print_container_none_iff (sep end_ : ascii) (output : list T)
    (out : string) :
  print_container T neq show sep end_ output out = None <-> output = [].
Proof.
  destruct output as [| x output].
  - split; reflexivity.
  - destruct (print_container_nonempty sep end_ (x :: output) out)
      as [l [_ H]]; [discriminate |].
    rewrite H. split; discriminate.
Qed.

Lemma print_front_none (sep : ascii) (front : list (printable T)) :
  fold_left
    (fun acc first =>
       match acc with
       | Some out' => print_first T neq show sep first out'
       | None => None
       end)
    front None = None.
Proof. induction front as [| a front IH]; [reflexivity | exact IH]. Qed.

(** A call splits at any argument that is not its last: the arguments in
    front are treated by the variadic overload, the others by the call on
    them. *)
Lemma print_app (sep end_ : ascii) (front rest : list (printable T))
    (out : string) :
  rest <> [] ->
  print T neq show sep end_ (front ++ rest) out
  = match print_front T neq show sep front out with
    | None => None
    | Some out' => print T neq show sep end_ rest out'
    end.
Proof.
  intros Hrest. revert out. induction front as [| a front IH]; intros out;
    [reflexivity |].
  cbn [app]. rewrite print_more
    by (destruct front; [exact Hrest | discriminate]).
  unfold print_front. cbn [fold_left].
  destruct (print_first T neq show sep a out) as [out' |].
  - apply IH.
  - rewrite print_front_none. reflexivity.
Qed.

Lemma ends_with_cons (a b : printable T) (r : list (printable T))
    (z : printable T) :
  (exists front, a :: b :: r = (front ++ [z])%list)
  <-> (exists front, b :: r = (front ++ [z])%list).
Proof.
  split; intros [front E].
  - destruct front as [| x front]; [discriminate E |].
    injection E as _ E. exists front. exact E.
  - exists (a :: front). cbn [app]. rewrite E. reflexivity.
Qed.

Lemma print_none_iff (sep end_ : ascii) (args : list (printable T))
    (out : string) :
  print T neq show sep end_ args out = None
  <-> In (Cont []) args
      \/ exists text front, args = (front ++ [Both text []])%list.
Proof.
  revert out. induction args as [| a rest IH]; intros out.
  - cbn [print In]. split; [discriminate |].
    intros [[] | [text [front E]]]. destruct front; discriminate E.
  - destruct rest as [| b rest'].
    + assert (Hone : forall z : printable T,
                (exists front, [a] = (front ++ [z])%list) <-> a = z).
      { intros z. split.
        - intros [[| x [| y front]] E]; try discriminate E.
          injection E as E. exact E.
        - intros ->. exists []. reflexivity. }
      destruct a as [text | output | text output].
      * rewrite print_single_scalar. split; [discriminate |].
        intros [[H | []] | [t [front E]]]; [discriminate H |].
        assert (H : Scalar text = Both t []) by (apply Hone; eauto).
        discriminate H.
      * rewrite (print_single_container T neq show sep end_ _ output)
          by reflexivity.
        rewrite print_container_none_iff. split.
        -- intros ->. left. left. reflexivity.
        -- intros [[H | []] | [t [front E]]].
           ++ injection H as H. exact H.
           ++ assert (H : Cont output = Both t []) by (apply Hone; eauto).
              discriminate H.
      * rewrite (print_single_container T neq show sep end_ _ output)
          by reflexivity.
        rewrite print_container_none_iff. split.
        -- intros ->. right. exists text, []. reflexivity.
        -- intros [[H | []] | [t [front E]]]; [discriminate H |].
           assert (H : Both text output = Both t [])
             by (apply Hone; eauto).
           injection H as _ H. exact H.
    + rewrite print_more by discriminate.
      assert (Htail : (exists text front,
                          a :: b :: rest' = (front ++ [Both text []])%list)
                      <-> (exists text front,
                             b :: rest' = (front ++ [Both text []])%list)).
      { split; intros [t H]; exists t; apply (ends_with_cons a b rest');
          exact H. }
      rewrite Htail. cbn [In].
      destruct a as [text | output | text output]; cbn [print_first].
      * rewrite IH. cbn [In]. split; [tauto |].
        intros [[H | H] | H]; [discriminate H | tauto | tauto].
      * destruct output as [| x output].
        -- rewrite print_container_empty. split; [| reflexivity].
           intros _. left. left. reflexivity.
        -- destruct (print_container_nonempty sep " " (x :: output) out)
             as [l [_ H1]]; [discriminate |].
           rewrite H1, IH. cbn [In]. split; [tauto |].
           intros [[H | H] | H]; [discriminate H | tauto | tauto].
      * rewrite IH. cbn [In]. split; [tauto |].
        intros [[H | H] | H]; [discriminate H | tauto | tauto].
Qed.

End FormatterMore.

Section FormatterExtras.

Import Formatter FormatterSpec.
Local Open Scope string_scope.

(** X7.  A container whose last element compares equal to itself and
    differently from every element before it is rendered in one piece: the
    opening brace, every element but the last followed by a comma, the last
    followed by the closing brace and the terminator. *)
Theorem print_container_plain
    (T : Type) (neq : T -> T -> bool) (show : T -> string)
    (sep end_ : ascii) (init : list T) (last_elem : T) (out : string) :
  forallb (fun p => neq p last_elem) init = true ->
  neq last_elem last_elem = false ->
  print_container T neq show sep end_ (init ++ [last_elem]) out
  = Some (out ++ opening sep ++ commas_text T show sep init
              ++ with_brace T show sep end_ last_elem).
Proof.
  intros Hinit Hlast.
  rewrite (print_container_text T neq show sep end_ _ last_elem out
             (deref_last T init last_elem)).
  rewrite elems_text_app.
  rewrite (elems_text_commas T neq show sep end_ last_elem init Hinit).
  cbn [elems_text]. unfold elem_text. rewrite Hlast, append_nil_r.
  reflexivity.
Qed.

Lemma print_container_plain_witness :
  print_containerZ " " "010" ([1%Z; 2%Z] ++ [3%Z])%list ""
  = Some ("" ++ opening " " ++ commas_text Z Stream.put_signed " " [1; 2]%Z
             ++ with_brace Z Stream.put_signed " " "010" 3%Z).
Proof.
  apply (print_container_plain Z neqZ Stream.put_signed " " "010"
           [1; 2]%Z 3%Z ""); reflexivity.
Defined.

(** X8.  When no element compares equal to the last element, the last one
    included (an element type whose [!=] holds of a value and itself),
    every element is followed by a comma and neither the closing brace nor
    the terminator is ever written. *)
Theorem print_container_never_closed
    (T : Type) (neq : T -> T -> bool) (show : T -> string)
    (sep end_ : ascii) (init : list T) (last_elem : T) (out : string) :
  forallb (fun p => neq p last_elem) (init ++ [last_elem]) = true ->
  print_container T neq show sep end_ (init ++ [last_elem]) out
  = Some (out ++ opening sep
              ++ commas_text T show sep (init ++ [last_elem])).
Proof.
  intros H.
  rewrite (print_container_text T neq show sep end_ _ last_elem out
             (deref_last T init last_elem)).
  rewrite (elems_text_commas T neq show sep end_ last_elem _ H).
  reflexivity.
Qed.

Lemma print_container_never_closed_witness :
  print_container (option Z)
    (fun a b => match a, b with
                | Some x, Some y => negb (x =? y)%Z
                | _, _ => true
                end)
    (fun a => match a with Some x => Stream.put_signed x | None => "nan" end)
    " " "010" ([Some 1%Z] ++ [None])%list ""
  = Some ("" ++ opening " "
             ++ commas_text (option Z)
                  (fun a => match a with
                            | Some x => Stream.put_signed x
                            | None => "nan"
                            end)
                  " " ([Some 1%Z] ++ [None])%list).
Proof.
  apply (print_container_never_closed (option Z)
           (fun a b => match a, b with
                       | Some x, Some y => negb (x =? y)%Z
                       | _, _ => true
                       end)
           (fun a => match a with
                     | Some x => Stream.put_signed x
                     | None => "nan"
                     end)
           " " "010" [Some 1%Z] None "").
  reflexivity.
Defined.

(** X9.  For arguments that are scalars, containers of stream-writable
    elements, or stream-writable containers, a call of [print] is undefined
    exactly when an empty container reaches the container overload: some
    argument that is a container and not stream-writable is empty, or the
    last argument is an empty stream-writable container.  An empty
    stream-writable container before another argument is streamed and does
    no harm. *)
Theorem print_defined_iff_no_empty_container
    (T : Type) (neq : T -> T -> bool) (show : T -> string)
    (sep end_ : ascii) (args : list (printable T)) (out : string) :
  print T neq show sep end_ args out = None
  <-> In (Cont []) args
      \/ exists text front, args = (front ++ [Both text []])%list.
Proof. apply print_none_iff. Qed.

(** X10.  Where an argument stands decides how a container is written.
    After any arguments [front] that are written without harm, a container
    [c] that is rendered in one piece is, as the last argument, closed by
    the brace, [sep] and the terminator of the call, with nothing written
    after it, whether it is stream-writable or not; with further arguments
    [rest] behind it, a container that is not stream-writable is closed by
    the brace, [sep] and a blank, and a stream-writable one gets no braces
    at all: it is streamed, followed by [sep]; in both cases the call goes
    on with [rest]. *)
Theorem print_container_position
    (T : Type) (neq : T -> T -> bool) (show : T -> string)
    (sep end_ : ascii) (front rest : list (printable T))
    (init : list T) (last_elem : T) (text out out' : string) :
  print_front T neq show sep front out = Some out' ->
  forallb (fun p => neq p last_elem) init = true ->
  neq last_elem last_elem = false ->
  rest <> [] ->
  print T neq show sep end_ (front ++ [Cont (init ++ [last_elem])]) out
  = Some (out' ++ opening sep ++ commas_text T show sep init
               ++ with_brace T show sep end_ last_elem)
  /\ print T neq show sep end_
       (front ++ [Both text (init ++ [last_elem])]) out
     = Some (out' ++ opening sep ++ commas_text T show sep init
                  ++ with_brace T show sep end_ last_elem)
  /\ print T neq show sep end_
       (front ++ Cont (init ++ [last_elem]) :: rest) out
     = print T neq show sep end_ rest
         (out' ++ opening sep ++ commas_text T show sep init
               ++ with_brace T show sep " " last_elem)
  /\ print T neq show sep end_
       (front ++ Both text (init ++ [last_elem]) :: rest) out
     = print T neq show sep end_ rest (out' ++ text ++ String sep "").
Proof.
  intros Hfront Hinit Hlast Hrest.
  rewrite !(print_app T neq show sep end_ front) by discriminate.
  rewrite Hfront.
  rewrite !(print_single_container T neq show sep end_ _
              (init ++ [last_elem])) by reflexivity.
  rewrite !print_more by exact Hrest. cbn [print_first].
  rewrite !(print_container_plain T neq show sep _ init last_elem _
              Hinit Hlast).
  repeat split.
Qed.

Lemma print_container_position_witness :
  print Z neqZ Stream.put_signed " " "010"
    ([Scalar "x"; Cont [5%Z]] ++ [Cont ([1%Z; 2%Z] ++ [3%Z])])%list ""
  = Some ("x {  5 }  " ++ opening " "
             ++ commas_text Z Stream.put_signed " " [1; 2]%Z
             ++ with_brace Z Stream.put_signed " " "010" 3%Z)
  /\ print Z neqZ Stream.put_signed " " "010"
       ([Scalar "x"; Cont [5%Z]]
          ++ [Both "ab" ([1%Z; 2%Z] ++ [3%Z])])%list ""
     = Some ("x {  5 }  " ++ opening " "
                ++ commas_text Z Stream.put_signed " " [1; 2]%Z
                ++ with_brace Z Stream.put_signed " " "010" 3%Z)
  /\ print Z neqZ Stream.put_signed " " "010"
       ([Scalar "x"; Cont [5%Z]]
          ++ Cont ([1%Z; 2%Z] ++ [3%Z]) :: [Scalar "y"])%list ""
     = print Z neqZ Stream.put_signed " " "010" [Scalar "y"]
         ("x {  5 }  " ++ opening " "
            ++ commas_text Z Stream.put_signed " " [1; 2]%Z
            ++ with_brace Z Stream.put_signed " " " " 3%Z)
  /\ print Z neqZ Stream.put_signed " " "010"
       ([Scalar "x"; Cont [5%Z]]
          ++ Both "ab" ([1%Z; 2%Z] ++ [3%Z]) :: [Scalar "y"])%list ""
     = print Z neqZ Stream.put_signed " " "010" [Scalar "y"]
         ("x {  5 }  " ++ "ab" ++ String " " "").
Proof.
  apply (print_container_position Z neqZ Stream.put_signed " " "010"
           [Scalar "x"; Cont [5%Z]] [Scalar "y"] [1; 2]%Z 3%Z "ab" ""
           "x {  5 }  ").
  - reflexivity.
  - reflexivity.
  - reflexivity.
  - discriminate.
Defined.

End FormatterExtras.

(** ** human_readable_time: magnitudes *)

Section TimingExtras.

Import Timing TimerSpec.
Local Open Scope string_scope.

Lemma human_readable_time_diff_ns (d : Z) :
  diff_ns (human_readable_time d) = d.
Proof.
  unfold human_readable_time.
  destruct (d <? 1000)%Z; [reflexivity |].
  destruct (d <? 1000000)%Z; [reflexivity |].
  destruct (d <? 1000000000)%Z; [reflexivity |].
  destruct (d <? 1000000000 * 60)%Z; [reflexivity |].
  destruct (d <? 1000000000 * 3600)%Z; reflexivity.
Qed.

Lemma quot_bounds (d c lo hi : Z) :
  (0 < c)%Z -> (c * lo <= d)%Z -> (d < c * hi)%Z -> (0 <= d)%Z ->
  (lo <= Z.quot d c < hi)%Z.
Proof.
  intros Hc Hlo Hhi Hd. split.
  - apply Z.quot_le_lower_bound; assumption.
  - apply Z.quot_lt_upper_bound; assumption.
Qed.

(** The six branches, each with the range of inputs that reaches it. *)
Lemma human_readable_time_cases (d : Z) :
  ((d < 1000)%Z /\ human_readable_time d = mkHRT " ns" "" d d d)
  \/ ((1000 <= d < 1000000)%Z
      /\ human_readable_time d = mkHRT " µs" "" (Z.quot d 1000) d d)
  \/ ((1000000 <= d < 1000000000)%Z
      /\ human_readable_time d
         = mkHRT " ms" " µs" (Z.quot d 1000000) (Z.quot d 1000) d)
  \/ ((1000000000 <= d < 60000000000)%Z
      /\ human_readable_time d
         = mkHRT " s" " ms" (Z.quot d 1000000000) (Z.quot d 1000000) d)
  \/ ((60000000000 <= d < 3600000000000)%Z
      /\ human_readable_time d
         = mkHRT " m" " s" (Z.quot d 60000000000) (Z.quot d 1000000000) d)
  \/ ((3600000000000 <= d)%Z
      /\ human_readable_time d
         = mkHRT " h" " m" (Z.quot d 3600000000000) (Z.quot d 60000000) d).
Proof.
  unfold human_readable_time.
  change (1000000000 * 60)%Z with 60000000000%Z.
  change (1000000000 * 3600)%Z with 3600000000000%Z.
  destruct (Z.ltb_spec d 1000); [left; split; [lia | reflexivity] |].
  right.
  destruct (Z.ltb_spec d 1000000); [left; split; [lia | reflexivity] |].
  right.
  destruct (Z.ltb_spec d 1000000000); [left; split; [lia | reflexivity] |].
  right.
  destruct (Z.ltb_spec d 60000000000); [left; split; [lia | reflexivity] |].
  right.
  destruct (Z.ltb_spec d 3600000000000); [left | right];
    (split; [lia | reflexivity]).
Qed.

(** X12.  From 1000 ns on the coarse magnitude is at least 1 and stays
    within its unit: below 1000 up to one second (µs and ms), below 60 from
    one second up to one hour (s and m); and the raw count is returned
    unchanged in [diff_ns]. *)
Theorem human_readable_time_magnitude (d : Z) :
  (1000 <= d)%Z ->
  (1 <= diff (human_readable_time d))%Z
  /\ ((d < 1000000000)%Z -> (diff (human_readable_time d) < 1000)%Z)
  /\ ((1000000000 <= d < 3600000000000)%Z ->
      (diff (human_readable_time d) < 60)%Z)
  /\ diff_ns (human_readable_time d) = d.
Proof.
  intros H. destruct (human_readable_time_cases d)
    as [[R E] | [[R E] | [[R E] | [[R E] | [[R E] | [R E]]]]]];
    rewrite E; cbn [diff diff_ns]; try lia.
  - pose proof (quot_bounds d 1000 1 1000). lia.
  - pose proof (quot_bounds d 1000000 1 1000). lia.
  - pose proof (quot_bounds d 1000000000 1 60). lia.
  - pose proof (quot_bounds d 60000000000 1 60). lia.
  - pose proof (quot_bounds d 3600000000000 1 (d + 1)). nia.
Qed.

Lemma human_readable_time_magnitude_witness :
  (1 <= diff (human_readable_time 90000000000))%Z
  /\ ((90000000000 < 1000000000)%Z ->
      (diff (human_readable_time 90000000000) < 1000)%Z)
  /\ ((1000000000 <= 90000000000 < 3600000000000)%Z ->
      (diff (human_readable_time 90000000000) < 60)%Z)
  /\ diff_ns (human_readable_time 90000000000) = 90000000000%Z.
Proof.
  apply (human_readable_time_magnitude 90000000000). lia.
Defined.

End TimingExtras.

Section TimerExtras.

Import Timing TimerSpec.
Local Open Scope string_scope.

(** X13.  From one millisecond up to one hour the two magnitudes agree:
    the coarse one is the fine one divided (truncating) by the ratio of
    their units, 1000 for ms/µs and s/ms, 60 for m/s. *)
Theorem human_readable_time_fine_agrees (d : Z) :
  (1000000 <= d < 3600000000000)%Z ->
  diff (human_readable_time d)
  = Z.quot (diff_fine (human_readable_time d))
      (if (d <? 60000000000)%Z then 1000 else 60).
Proof.
  intros H. destruct (human_readable_time_cases d)
    as [[R E] | [[R E] | [[R E] | [[R E] | [[R E] | [R E]]]]]];
    try lia; rewrite E; cbn [diff diff_fine];
    destruct (Z.ltb_spec d 60000000000); try lia;
    rewrite Z.quot_quot by lia; reflexivity.
Qed.

Lemma human_readable_time_fine_agrees_witness :
  diff (human_readable_time 90000000000)
  = Z.quot (diff_fine (human_readable_time 90000000000))
      (if (90000000000 <? 60000000000)%Z then 1000 else 60).
Proof.
  apply (human_readable_time_fine_agrees 90000000000). lia.
Defined.

(** X14.  [stop()] does not restart the Timer: two calls in a row both
    measure from the same start reading, the second report covers the
    first one's time as well, and each call adds its own report. *)
Theorem timer_stop_keeps_start
    (now1 now2 : Z) (ctime1 ctime2 : string) (t : Timer)
    (cout : list string) :
  let '(hrt1, t1, cout1) := stop now1 ctime1 t cout in
  let '(hrt2, t2, cout2) := stop now2 ctime2 t1 cout1 in
  diff_ns hrt1 = (now1 - Start t)%Z
  /\ diff_ns hrt2 = (now2 - Start t)%Z
  /\ Start t2 = Start t
  /\ cout2 = (cout ++ [report ctime1 hrt1; report ctime2 hrt2])%list.
Proof.
  unfold stop. cbn [Start]. rewrite !human_readable_time_diff_ns.
  rewrite <- app_assoc. repeat split.
Qed.

Lemma run_start (ops : list op) (t : Timer) (cout : list string) :
  Start (fst (run ops t cout)) = last_restart (Start t) ops.
Proof.
  revert t cout. induction ops as [| o ops IH]; intros t cout;
    [reflexivity |].
  destruct o as [now | now ctime]; cbn [run last_restart].
  - rewrite IH. reflexivity.
  - unfold stop. rewrite IH. reflexivity.
Qed.

Lemma run_no_stop (ops : list op) (t : Timer) (cout : list string) :
  existsb is_stop ops = false -> snd (run ops t cout) = cout.
Proof.
  revert t. induction ops as [| o ops IH]; intros t H; [reflexivity |].
  destruct o as [now | now ctime]; cbn [existsb is_stop orb] in H.
  - cbn [run]. apply IH, H.
  - discriminate H.
Qed.

(** X15.  A Timer on which [stop()] is never called reports, at the end of
    its scope, the time since its last [restart()] (since construction if
    there was none): the console gains the one report of that elapsed
    time. *)
Theorem timer_destructor_measures_from_last_restart
    (start : Z) (ops : list op) (now : Z) (ctime : string)
    (cout : list string) :
  existsb is_stop ops = false ->
  lifetime start ops now ctime cout
  = (cout ++ [report ctime
                (human_readable_time (now - last_restart start ops))])%list.
Proof.
  intros H. unfold lifetime.
  pose proof (run_start ops (ctor start) cout) as Hs.
  pose proof (run_no_stop ops (ctor start) cout H) as Hc.
  pose proof (run_reports ops (ctor start) cout) as [_ Hf].
  destruct (run ops (ctor start) cout) as [t cout'].
  cbn [fst snd] in *. subst cout'. unfold dtor. rewrite Hf, H.
  cbn [ctor stopped orb negb]. unfold stop. cbn [snd]. rewrite Hs.
  reflexivity.
Qed.

Lemma timer_destructor_measures_from_last_restart_witness :
  lifetime 0 [Restart 100; Restart 250] 1750 "t" []
  = ([] ++ [report "t"
              (human_readable_time
                 (1750 - last_restart 0 [Restart 100; Restart 250]))])%list.
Proof.
  apply (timer_destructor_measures_from_last_restart
           0 [Restart 100; Restart 250] 1750 "t" []).
  reflexivity.
Defined.

End TimerExtras.
